(** * DreamAbode (src/App.tsx): a shallow embedding of the root component

    The component keeps React state (image, chat, tab, flags), a handful
    of refs used by the live voice session, and talks to three kinds of
    outside parties: the hosted model API, the browser audio stack and the
    file reader.  Handlers are embedded as functions on explicit state;
    whatever the outside world answers (an API result, a file read, an
    [onended] callback) enters as an event.

    Conventions
    - a JavaScript string is the list of its UTF-16 code units ([list Z]);
    - a [Uint8Array] is a [list Byte.byte];
    - [null] / [undefined] are [None];
    - an exception thrown by a browser primitive is [None] in the
      primitive's result and is routed to the enclosing [catch] by hand. *)

From Stdlib Require Import ZArith QArith Qround Lia Lqa List Ascii String.
From Stdlib.Strings Require Import Byte.
From stdpp Require Import base option list gmap.
Import ListNotations.

(** ** JavaScript values *)

Module JS.

Abbreviation jsstring := (list Z).

(** code units of a literal of the source text *)
Definition lit (s : string) : jsstring :=
  List.map (fun c => Z.of_N (N_of_ascii c)) (list_ascii_of_string s).

(** [!!s] for a string: every string but the empty one is truthy *)
Definition truthy (s : jsstring) : bool :=
  match s with [] => false | _ :: _ => true end.

(** [!!v] for a [string | null] value *)
Definition truthy_opt (v : option jsstring) : bool :=
  match v with None => false | Some s => truthy s end.

Local Open Scope Z_scope.

(** WhiteSpace and LineTerminator code points removed by
    [String.prototype.trim] (ECMA-262, 22.1.3.32) *)
Definition isTrimSpace (c : Z) : bool :=
  (9 <=? c) && (c <=? 13) || (c =? 32) || (c =? 160) || (c =? 5760)
  || (8192 <=? c) && (c <=? 8202) || (c =? 8232) || (c =? 8233)
  || (c =? 8239) || (c =? 8287) || (c =? 12288) || (c =? 65279).

Fixpoint trimStart (s : jsstring) : jsstring :=
  match s with
  | c :: s' => if isTrimSpace c then trimStart s' else s
  | [] => []
  end.

Definition trim (s : jsstring) : jsstring :=
  rev (trimStart (rev (trimStart s))).

(** [s.split(',')] *)
Fixpoint split_on (sep : Z) (s : jsstring) : list jsstring :=
  match s with
  | [] => [[]]
  | c :: s' =>
      if c =? sep then [] :: split_on sep s'
      else match split_on sep s' with
           | w :: ws => (c :: w) :: ws
           | [] => [[c]]
           end
  end.

(** a [Uint8Array] element and its numeric value *)
Definition byteZ (b : byte) : Z := Z.of_N (Byte.to_N b).

(** the store [bytes[i] = v] into a [Uint8Array]: [v] modulo 256 *)
Definition Zbyte (v : Z) : byte :=
  match Byte.of_N (Z.to_N (v mod 256)) with
  | Some b => b
  | None => x00
  end.

End JS.

(** ** [btoa] and [atob]

    Both are browser built-ins.  [btoa] is RFC 4648 base64 with padding and
    throws on a code unit above 0xFF; [atob] is the "forgiving-base64
    decode" of the WHATWG Infra standard. *)

Module Base64.
Import JS.
Local Open Scope Z_scope.

Definition alphabet : jsstring :=
  lit "ABCDEFGHIJKLMNOPQRSTUVWXYZabcdefghijklmnopqrstuvwxyz0123456789+/".

Definition pad : Z := 61.

Definition char_of (sextet : Z) : Z := nth (Z.to_nat sextet) alphabet 0.

Fixpoint position (c : Z) (l : jsstring) (i : Z) : option Z :=
  match l with
  | [] => None
  | x :: l' => if x =? c then Some i else position c l' (i + 1)
  end.

Definition index_of (c : Z) : option Z := position c alphabet 0.

(** three octets make four sextets; a tail of one or two octets is
    zero-extended to two or three sextets *)
Fixpoint sextets (l : list Z) : list Z :=
  match l with
  | a :: b :: c :: rest =>
      let n := a * 65536 + b * 256 + c in
      n / 262144 :: (n / 4096) mod 64 :: (n / 64) mod 64 :: n mod 64
        :: sextets rest
  | [a; b] =>
      let n := (a * 256 + b) * 4 in
      [n / 4096; (n / 64) mod 64; n mod 64]
  | [a] =>
      let n := a * 16 in
      [n / 64; n mod 64]
  | [] => []
  end.

Definition padding (len : nat) : jsstring :=
  match (len mod 3)%nat with
  | 1%nat => [pad; pad]
  | 2%nat => [pad]
  | _ => []
  end.

(** [btoa(s)]: [None] stands for the InvalidCharacterError *)
Definition btoa (s : jsstring) : option jsstring :=
  if forallb (fun c => (0 <=? c) && (c <=? 255)) s
  then Some (List.map char_of (sextets s) ++ padding (length s))
  else None.

Definition isAsciiWhitespace (c : Z) : bool :=
  (c =? 9) || (c =? 10) || (c =? 12) || (c =? 13) || (c =? 32).

(** "if data ends with one or two U+003D (=) code points, remove them" *)
Definition stripPadding (d : jsstring) : jsstring :=
  match rev d with
  | x :: r =>
      if x =? pad then
        match r with
        | y :: r' => if y =? pad then rev r' else rev r
        | [] => rev r
        end
      else d
  | [] => d
  end.

(** four sextets make three octets; of a tail of three sextets the last
    two bits are dropped, of a tail of two the last four *)
Fixpoint octets (l : list Z) : list Z :=
  match l with
  | a :: b :: c :: d :: rest =>
      let n := a * 262144 + b * 4096 + c * 64 + d in
      n / 65536 :: (n / 256) mod 256 :: n mod 256 :: octets rest
  | [a; b; c] =>
      let n := (a * 4096 + b * 64 + c) / 4 in
      [n / 256; n mod 256]
  | [a; b] =>
      let n := (a * 64 + b) / 16 in
      [n]
  | _ => []
  end.

(** [atob(data)]: [None] stands for the InvalidCharacterError *)
Definition atob (data : jsstring) : option jsstring :=
  let d := List.filter (fun c => negb (isAsciiWhitespace c)) data in
  let d := if (length d mod 4 =? 0)%nat then stripPadding d else d in
  if (length d mod 4 =? 1)%nat then None
  else match mapM index_of d with
       | Some sx => Some (octets sx)
       | None => None
       end.

(** the capture path: [btoa(String.fromCharCode(...bytes))]; the limit an
    engine puts on the number of spread arguments is not modelled *)
Definition fromCharCode (bytes : list byte) : jsstring :=
  List.map byteZ bytes.

Definition encodeBytes (bytes : list byte) : option jsstring :=
  btoa (fromCharCode bytes).

(** the playback path: [atob], then [bytes[i] = s.charCodeAt(i)] *)
Definition decodeBytes (chunk : jsstring) : option (list byte) :=
  match atob chunk with
  | Some binaryString => Some (List.map Zbyte binaryString)
  | None => None
  end.

(** the values of a code unit accepted by [btoa], and of a base64 digit *)
Definition octet (c : Z) : Prop := 0 <= c < 256.
Definition sextet (s : Z) : Prop := 0 <= s < 64.

End Base64.

(** ** PCM conversion on the capture and the playback path *)

Module Pcm.
Import JS Base64.

(** A JavaScript number as it occurs on the audio paths.  A finite value
    is kept as the rational it denotes.  Every product formed below is of
    a binary32 sample of magnitude at most 1 with 0x8000 or 0x7FFF (at
    most 24 + 16 significant bits), and every quotient is of a 16-bit
    integer by 2^15, so the binary64 operations of the source are exact
    and the rational is the value the engine computes. *)
Inductive number :=
| NaN
| Inf (negative : bool)
| Fin (q : Q).

Definition Qltb (p q : Q) : bool := negb (Qle_bool q p).

(** [a < b] *)
Definition lt (a b : number) : bool :=
  match a, b with
  | NaN, _ | _, NaN => false
  | Inf n1, Inf n2 => n1 && negb n2
  | Inf n, Fin _ => n
  | Fin _, Inf n => negb n
  | Fin p, Fin q => Qltb p q
  end.

Definition isNaN (a : number) : bool :=
  match a with NaN => true | _ => false end.

(** [Math.min(a, b)] and [Math.max(a, b)]: NaN if either argument is *)
Definition Math_min (a b : number) : number :=
  if isNaN a || isNaN b then NaN else if lt b a then b else a.

Definition Math_max (a b : number) : number :=
  if isNaN a || isNaN b then NaN else if lt a b then b else a.

(** [a * b] *)
Definition mul (a b : number) : number :=
  match a, b with
  | NaN, _ | _, NaN => NaN
  | Fin p, Fin q => Fin (p * q)
  | Inf n, Fin q | Fin q, Inf n =>
      if Qeq_bool q 0 then NaN else Inf (xorb n (Qltb q 0))
  | Inf n1, Inf n2 => Inf (xorb n1 n2)
  end.

(** the integer part, rounding toward zero *)
Definition truncate (q : Q) : Z := Z.quot (Qnum q) (Z.pos (Qden q)).

Definition wrap16 (n : Z) : Z :=
  let u := (n mod 65536)%Z in
  if (u <? 32768)%Z then u else (u - 65536)%Z.

(** the store [pcmData[i] = v] into an [Int16Array] (ToInt16) *)
Definition toInt16 (v : number) : Z :=
  match v with
  | Fin q => wrap16 (truncate q)
  | _ => 0%Z
  end.

(** [Math.max(-1, Math.min(1, x))] *)
Definition clamp (x : number) : number :=
  Math_max (Fin (-1)) (Math_min (Fin 1) x).

(** [s < 0 ? s * 0x8000 : s * 0x7FFF] *)
Definition scale (s : number) : number :=
  if lt s (Fin 0) then mul s (Fin 32768) else mul s (Fin 32767).

(** one iteration of the conversion loop of [onaudioprocess] *)
Definition convertSample (x : number) : Z := toInt16 (scale (clamp x)).

(** [new Uint8Array(pcmData.buffer)]: two bytes per sample, low byte
    first (typed arrays use the platform byte order, little-endian on all
    platforms browsers run on) *)
Definition int16Bytes (v : Z) : list byte :=
  [Zbyte v; Zbyte (v / 256)%Z].

Record RealtimeInput := {
  mimeType : jsstring;
  data : jsstring
}.

(** [processor.onaudioprocess]: the message handed to
    [session.sendRealtimeInput], [None] if [btoa] throws *)
Definition onaudioprocess (inputData : list number) : option RealtimeInput :=
  let pcmData := List.map convertSample inputData in
  match encodeBytes (List.concat (List.map int16Bytes pcmData)) with
  | Some base64Audio =>
      Some {| mimeType := lit "audio/pcm;rate=16000"; data := base64Audio |}
  | None => None
  end.

(** the constants of [startLiveSession] *)
Record AudioContextOptions := { ctxSampleRate : Z }.
Record AudioConstraints := { channelCount : Z; micSampleRate : Z }.

Definition captureContextOptions : AudioContextOptions :=
  {| ctxSampleRate := 16000 |}.

Definition captureConstraints : AudioConstraints :=
  {| channelCount := 1; micSampleRate := 16000 |}.

(** [dataView.getInt16(off, true)]: [None] is the RangeError raised when
    the two bytes do not lie inside the view *)
Definition getInt16 (bytes : list byte) (off : nat) : option Z :=
  match bytes !! off, bytes !! (S off) with
  | Some lo, Some hi => Some (wrap16 (byteZ lo + 256 * byteZ hi))
  | _, _ => None
  end.

(** [float32[i] = int16 / 32768] *)
Definition sampleOf (int16 : Z) : Q := int16 # 32768.

(** the loop [for (i = 0; i < bytes.length / 2; i++)] with [n] iterations
    left; a store past the end of a typed array is ignored, as is a list
    insert *)
Fixpoint fillSamples (bytes : list byte) (n i : nat) (float32 : list Q)
  : option (list Q) :=
  match n with
  | O => Some float32
  | S n' =>
      match getInt16 bytes (i * 2) with
      | Some int16 =>
          fillSamples bytes n' (S i) (<[i := sampleOf int16]> float32)
      | None => None
      end
  end.

Record AudioBuffer := {
  sampleRate : Z;
  channels : list (list Q)
}.


(** [ctx.createBuffer(numberOfChannels, length, sampleRate)]: a
    NotSupportedError ([None]) for no channel or no frame *)
Definition createBuffer (nch len : nat) (rate : Z) : option AudioBuffer :=
  match nch, len with
  | O, _ | _, O => None
  | _, _ => Some {| sampleRate := rate;
                    channels := replicate nch (replicate len 0%Q) |}
  end.

(** [buffer.getChannelData(ch).set(src)]: a RangeError ([None]) if the
    source does not fit *)
Definition setChannelData (ch : nat) (src : list Q) (b : AudioBuffer)
  : option AudioBuffer :=
  match channels b !! ch with
  | Some dst =>
      if (length src <=? length dst)%nat
      then Some {| sampleRate := sampleRate b;
                   channels := <[ch := src ++ drop (length src) dst]> (channels b) |}
      else None
  | None => None
  end.

(** the body of the [try] block of [processAudioQueue] up to the
    creation of the buffer source; [None] transfers to [catch] *)
Definition decodeChunk (chunk : jsstring) : option AudioBuffer :=
  bytes ← decodeBytes chunk;
  let iterations := ((length bytes + 1) / 2)%nat in
  float32 ← fillSamples bytes iterations 0 (replicate (length bytes / 2) 0%Q);
  audioBuffer ← createBuffer 1 (length float32) 24000;
  setChannelData 0 float32 audioBuffer.

(** the values an [Int16Array] element can hold *)
Definition int16 (v : Z) : Prop := (-32768 <= v <= 32767)%Z.

End Pcm.

(** ** React state of [App] and the handlers of the chat and image tools *)

Module Message.
Import JS.

Inductive Role := user | model.

Record t := {
  role : Role;
  text : jsstring;
  image : option jsstring
}.

End Message.

Module Ui.
Import JS.

Inductive Tab := chat | generate | video.

Record State := {
  image : option jsstring;
  generatedImage : option jsstring;
  generatedVideo : option jsstring;
  isGenerating : bool;
  chatInput : jsstring;
  messages : list Message.t;
  activeTab : Tab;
  isLiveActive : bool
}.

(** the initial values handed to [useState] *)
Definition initial : State := {|
  image := None;
  generatedImage := None;
  generatedVideo := None;
  isGenerating := false;
  chatInput := [];
  messages :=
    [ {| Message.role := Message.model;
         Message.text := lit "Welcome to DreamAbode. I'm your personal interior design assistant. Upload a photo of your room to get started, or just tell me what you're looking for!";
         Message.image := None |} ];
  activeTab := chat;
  isLiveActive := false
|}.

(** the state setters returned by [useState] *)
Definition setImage (v : option jsstring) (s : State) : State :=
  {| image := v; generatedImage := generatedImage s;
     generatedVideo := generatedVideo s; isGenerating := isGenerating s;
     chatInput := chatInput s; messages := messages s;
     activeTab := activeTab s; isLiveActive := isLiveActive s |}.

Definition setGeneratedImage (v : option jsstring) (s : State) : State :=
  {| image := image s; generatedImage := v;
     generatedVideo := generatedVideo s; isGenerating := isGenerating s;
     chatInput := chatInput s; messages := messages s;
     activeTab := activeTab s; isLiveActive := isLiveActive s |}.

Definition setGeneratedVideo (v : option jsstring) (s : State) : State :=
  {| image := image s; generatedImage := generatedImage s;
     generatedVideo := v; isGenerating := isGenerating s;
     chatInput := chatInput s; messages := messages s;
     activeTab := activeTab s; isLiveActive := isLiveActive s |}.

Definition setIsGenerating (v : bool) (s : State) : State :=
  {| image := image s; generatedImage := generatedImage s;
     generatedVideo := generatedVideo s; isGenerating := v;
     chatInput := chatInput s; messages := messages s;
     activeTab := activeTab s; isLiveActive := isLiveActive s |}.

Definition setChatInput (v : jsstring) (s : State) : State :=
  {| image := image s; generatedImage := generatedImage s;
     generatedVideo := generatedVideo s; isGenerating := isGenerating s;
     chatInput := v; messages := messages s;
     activeTab := activeTab s; isLiveActive := isLiveActive s |}.

(** [setMessages(f)] with a functional update *)
Definition setMessages (f : list Message.t -> list Message.t) (s : State)
  : State :=
  {| image := image s; generatedImage := generatedImage s;
     generatedVideo := generatedVideo s; isGenerating := isGenerating s;
     chatInput := chatInput s; messages := f (messages s);
     activeTab := activeTab s; isLiveActive := isLiveActive s |}.

Definition setActiveTab (v : Tab) (s : State) : State :=
  {| image := image s; generatedImage := generatedImage s;
     generatedVideo := generatedVideo s; isGenerating := isGenerating s;
     chatInput := chatInput s; messages := messages s;
     activeTab := v; isLiveActive := isLiveActive s |}.

Definition setIsLiveActive (v : bool) (s : State) : State :=
  {| image := image s; generatedImage := generatedImage s;
     generatedVideo := generatedVideo s; isGenerating := isGenerating s;
     chatInput := chatInput s; messages := messages s;
     activeTab := activeTab s; isLiveActive := v |}.

Definition addMessage (role : Message.Role) (text : jsstring)
  (img : option jsstring) (s : State) : State :=
  setMessages
    (fun prev => prev ++ [ {| Message.role := role; Message.text := text;
                              Message.image := img |} ]) s.

(** *** What a handler asks of the outside world *)

Inductive Model := TEXT_CHAT | IMAGE_EDIT | VIDEO_GEN | LIVE_AUDIO.

Definition modelName (m : Model) : jsstring :=
  match m with
  | TEXT_CHAT => lit "gemini-3-flash-preview"
  | IMAGE_EDIT => lit "gemini-2.5-flash-image"
  | VIDEO_GEN => lit "veo-3.1-fast-generate-preview"
  | LIVE_AUDIO => lit "gemini-2.5-flash-native-audio-preview-09-2025"
  end.

Inductive SystemInstruction := DESIGNER.

Inductive Part :=
| textPart (text : jsstring)
| inlineDataPart (mimeType : jsstring) (data : option jsstring).

Record File := { fileName : jsstring }.

Inductive Effect :=
| readAsDataURL (file : File)
| generateContent (model : Model) (parts : list Part)
    (systemInstruction : option SystemInstruction)
| generateVideos (model : Model) (prompt : jsstring)
    (imageBytes : option jsstring) (mimeType : jsstring)
| getVideosOperation             (* [ai.operations.getVideosOperation] *)
| fetchVideo (uri : jsstring)    (* [fetch(videoUri)] with the API key *)
| newAudioContext (options : Pcm.AudioContextOptions)
| getUserMedia (audio : Pcm.AudioConstraints)
| liveConnect (model : Model)
    (systemInstruction : option SystemInstruction)
| consoleError (label : jsstring).

(** the requests that go to the hosted model API *)
Definition isApiCall (e : Effect) : bool :=
  match e with
  | generateContent _ _ _ | generateVideos _ _ _ _
  | getVideosOperation | fetchVideo _ | liveConnect _ _ => true
  | _ => false
  end.

(** the two requests that start a generation *)
Definition isGenerateCall (e : Effect) : bool :=
  match e with
  | generateContent _ _ _ | generateVideos _ _ _ _ => true
  | _ => false
  end.

(** [dataUrl.split(',')[1]] *)
Definition base64Of (dataUrl : jsstring) : option jsstring :=
  split_on 44 dataUrl !! 1%nat.

(** *** [handleImageUpload] *)

(** the synchronous part: [e.target.files?.[0]], and the read it starts *)
Definition handleImageUpload (files : option (list File)) (s : State)
  : State * list Effect :=
  match files ≫= head with
  | Some file => (s, [readAsDataURL file])
  | None => (s, [])
  end.

Definition uploadedText : jsstring := lit "I uploaded a room image.".
Definition uploadReply : jsstring :=
  lit "Great! I see your room. What would you like to change? I can suggest a new style, add specific furniture, or we can just chat about it.".

(** [reader.onloadend]; [result] is [reader.result], [null] after a
    failed read *)
Definition onloadend (result : option jsstring) (s : State) : State :=
  let s := setImage result s in
  let s := setActiveTab generate s in
  let s := addMessage Message.user uploadedText result s in
  addMessage Message.model uploadReply None s.

(** *** [handleSendMessage] *)

Inductive ChatOutcome :=
| chatResolved (text : option jsstring)
| chatRejected.

Definition chatFallback : jsstring :=
  lit "I'm having trouble connecting right now. Please try again.".

(** [!chatInput.trim() && !image] *)
Definition nothingToSend (s : State) : bool :=
  negb (truthy (trim (chatInput s))) && negb (truthy_opt (image s)).

(** up to the [await]: the guard, the optimistic updates, the request *)
Definition handleSendMessage_call (s : State) : State * list Effect :=
  if nothingToSend s then (s, [])
  else
    let userMsg := chatInput s in
    let s1 := setChatInput [] s in
    let s1 := addMessage Message.user userMsg None s1 in
    let s1 := setIsGenerating true s1 in
    let parts := [textPart userMsg] in
    let parts :=
      match image s with
      | Some img =>
          if truthy img
          then inlineDataPart (lit "image/jpeg") (base64Of img) :: parts
          else parts
      | None => parts
      end in
    (s1, [generateContent TEXT_CHAT parts (Some DESIGNER)]).

(** after the [await]: the rest of [try], or [catch], then [finally] *)
Definition handleSendMessage_settle (o : ChatOutcome) (s : State)
  : State * list Effect :=
  match o with
  | chatResolved text =>
      let s :=
        match text with
        | Some t => if truthy t then addMessage Message.model t None s else s
        | None => s
        end in
      (setIsGenerating false s, [])
  | chatRejected =>
      let s := addMessage Message.model chatFallback None s in
      (setIsGenerating false s, [consoleError (lit "Chat error:")])
  end.

(** the whole handler when nothing else runs during the [await] *)
Definition handleSendMessage (o : ChatOutcome) (s : State)
  : State * list Effect :=
  if nothingToSend s then (s, [])
  else
    let '(s1, e1) := handleSendMessage_call s in
    let '(s2, e2) := handleSendMessage_settle o s1 in
    (s2, e1 ++ e2).

(** *** [handleGenerateImage] *)

Record ResponsePart := {
  inlineData : option (option jsstring)   (* [part.inlineData?.data] *)
}.

Inductive ImageOutcome :=
| imageResolved (parts : option (list ResponsePart))
| imageRejected.

Definition quote : jsstring := [34%Z].

Definition ideaText (prompt : jsstring) : jsstring :=
  lit "Here is a generated idea based on " ++ quote ++ prompt ++ quote
    ++ lit ":".

Definition noImageText : jsstring :=
  lit "I couldn't generate an image this time. Please try a different prompt.".

Definition imageErrorText : jsstring :=
  lit "Sorry, I encountered an error generating the image.".

(** a template literal prints [undefined] by name *)
Definition interpolate (v : option jsstring) : jsstring :=
  match v with Some d => d | None => lit "undefined" end.

Definition handleGenerateImage_call (prompt : jsstring) (s : State)
  : State * list Effect :=
  match image s with
  | Some img =>
      if truthy img then
        let s1 := setIsGenerating true s in
        let s1 := setGeneratedImage None s1 in
        (s1, [generateContent IMAGE_EDIT
                [inlineDataPart (lit "image/jpeg") (base64Of img);
                 textPart prompt] None])
      else (s, [])
  | None => (s, [])
  end.

(** the [for ... of] loop over the parts of the first candidate; the
    flag is [foundImage] *)
Fixpoint extractImages (prompt : jsstring) (parts : list ResponsePart)
  (foundImage : bool) (s : State) : bool * State :=
  match parts with
  | [] => (foundImage, s)
  | part :: rest =>
      match inlineData part with
      | Some d =>
          let imgUrl := lit "data:image/png;base64," ++ interpolate d in
          let s := setGeneratedImage (Some imgUrl) s in
          let s := addMessage Message.model (ideaText prompt) (Some imgUrl) s in
          extractImages prompt rest true s
      | None => extractImages prompt rest foundImage s
      end
  end.

Definition handleGenerateImage_settle (prompt : jsstring) (o : ImageOutcome)
  (s : State) : State * list Effect :=
  match o with
  | imageResolved parts =>
      let '(foundImage, s) :=
        match parts with
        | Some ps => extractImages prompt ps false s
        | None => (false, s)
        end in
      let s :=
        if foundImage then s
        else addMessage Message.model noImageText None s in
      (setIsGenerating false s, [])
  | imageRejected =>
      let s := addMessage Message.model imageErrorText None s in
      (setIsGenerating false s, [consoleError (lit "Image gen error:")])
  end.

(** *** [handleGenerateVideo] *)

Definition videoPrompt : jsstring :=
  lit "A cinematic slow pan walkthrough of this room, high quality, photorealistic, 4k".

Definition videoStartText : jsstring :=
  lit "I'm generating a 3D walkthrough video for you. This may take a moment...".

(** [generatedImage || image] *)
Definition sourceImage (s : State) : option jsstring :=
  if truthy_opt (generatedImage s) then generatedImage s else image s.

Definition handleGenerateVideo_call (s : State) : State * list Effect :=
  if negb (truthy_opt (image s)) && negb (truthy_opt (generatedImage s))
  then (s, [])
  else
    match sourceImage s with
    | Some src =>
        if truthy src then
          let s1 := setIsGenerating true s in
          let s1 := setGeneratedVideo None s1 in
          let s1 := addMessage Message.model videoStartText None s1 in
          (s1, [generateVideos VIDEO_GEN videoPrompt (base64Of src)
                  (lit "image/png")])
        else (s, [])
    | None => (s, [])
    end.

(** one round of the polling loop: the operation is not done, the
    five-second timer has fired, the handler asks for the operation
    again *)
Definition handleGenerateVideo_poll (s : State) : State * list Effect :=
  (s, [getVideosOperation]).

(** the operation is done; [videoUri] is
    [operation.response?.generatedVideos?.[0]?.video?.uri].  With a URI
    the handler fetches it and waits; without one it reports and runs
    [finally] *)
Definition handleGenerateVideo_done (videoUri : option jsstring) (s : State)
  : State * list Effect :=
  match videoUri with
  | Some uri =>
      if truthy uri then (s, [fetchVideo uri])
      else
        let s := addMessage Message.model
                   (lit "Video generation failed to return a URI.") None s in
        (setIsGenerating false s, [])
  | None =>
      let s := addMessage Message.model
                 (lit "Video generation failed to return a URI.") None s in
      (setIsGenerating false s, [])
  end.

(** the fetch resolved and its blob was read; [url] is
    [URL.createObjectURL(blob)] *)
Definition handleGenerateVideo_fetched (url : jsstring) (s : State)
  : State * list Effect :=
  let s := setGeneratedVideo (Some url) s in
  let s := addMessage Message.model
             (lit "Here is your 3D walkthrough video!") None s in
  (setIsGenerating false s, []).

(** an [await] of the handler rejected: [catch], then [finally] *)
Definition handleGenerateVideo_catch (s : State) : State * list Effect :=
  let s := addMessage Message.model
             (lit "Sorry, I encountered an error generating the video.")
             None s in
  (setIsGenerating false s, [consoleError (lit "Video gen error:")]).

(** *** [startLiveSession], as far as React state and requests go *)

(** up to [await getUserMedia]: [setIsLiveActive(true)], the audio
    context is created, the microphone is asked for *)
Definition startLiveSession_call (s : State) : State * list Effect :=
  (setIsLiveActive true s,
   [newAudioContext Pcm.captureContextOptions;
    getUserMedia Pcm.captureConstraints]).

(** the microphone stream arrived: [ai.live.connect] is called *)
Definition startLiveSession_connect (s : State) : State * list Effect :=
  (s, [liveConnect LIVE_AUDIO (Some DESIGNER)]).

(** *** The component as a transition system

    One event per callback the component registers: the DOM handlers of
    the rendered tree and the continuations of its asynchronous handlers.
    A continuation is an event of its own because other handlers may run
    while a request is in flight.  Events are not restricted to the states
    in which the rendered tree offers them, which only enlarges the set of
    reachable states.  The voice-session handlers appear with what they
    do to React state, their calls of [setIsLiveActive], and with the
    requests they issue; what they do to the refs is in [Live]. *)

Inductive event :=
| FileChange (files : option (list File))
| LoadEnd (result : option jsstring)
| ChatInputChange (value : jsstring)
| Send
| ChatSettled (o : ChatOutcome)
| QuickAction (prompt : jsstring)
| Preset (style : jsstring)
| GenerateClick
| ImageSettled (prompt : jsstring) (o : ImageOutcome)
| WalkthroughClick
| VideoPoll
| VideoDone (videoUri : option jsstring)
| VideoFetched (url : jsstring)
| VideoFailed
| ResetClick
| IdeasClick
| ChatTabClick
| EditTabClick
| VoiceStart
| VoiceMicGranted
| VoiceStartFailed
| VoiceStop.

Definition presetPrompt (style : jsstring) : jsstring :=
  lit "Transform this room into " ++ style ++ lit " style".

Definition step (e : event) (s : State) : State * list Effect :=
  match e with
  | FileChange files => handleImageUpload files s
  | LoadEnd result => (onloadend result s, [])
  | ChatInputChange value => (setChatInput value s, [])
  | Send => handleSendMessage_call s
  | ChatSettled o => handleSendMessage_settle o s
  | QuickAction prompt => handleGenerateImage_call prompt s
  | Preset style => handleGenerateImage_call (presetPrompt style) s
  | GenerateClick =>
      let '(s1, eff) := handleGenerateImage_call (chatInput s) s in
      (setChatInput [] s1, eff)
  | ImageSettled prompt o => handleGenerateImage_settle prompt o s
  | WalkthroughClick => handleGenerateVideo_call s
  | VideoPoll => handleGenerateVideo_poll s
  | VideoDone videoUri => handleGenerateVideo_done videoUri s
  | VideoFetched url => handleGenerateVideo_fetched url s
  | VideoFailed => handleGenerateVideo_catch s
  | ResetClick => (setGeneratedVideo None (setGeneratedImage None s), [])
  | IdeasClick => (setActiveTab generate s, [])
  | ChatTabClick => (setActiveTab chat s, [])
  | EditTabClick => (setActiveTab generate s, [])
  | VoiceStart => startLiveSession_call s
  | VoiceMicGranted => startLiveSession_connect s
  | VoiceStartFailed => (setIsLiveActive false s, [])
  | VoiceStop => (setIsLiveActive false s, [])
  end.

(** the state after a history of events, oldest first *)
Definition run (history : list event) (s : State) : State :=
  fold_left (fun s e => fst (step e s)) history s.

Definition reachable (s : State) : Prop :=
  exists history, run history initial = s.

(** *** What the rendered tree makes of the state *)

(** [disabled] of the send button: [!chatInput.trim() && !image] *)
Definition sendDisabled (s : State) : bool :=
  negb (truthy (trim (chatInput s))) && negb (truthy_opt (image s)).

(** [disabled] of the Generate button:
    [!image || !chatInput.trim() || isGenerating] *)
Definition generateDisabled (s : State) : bool :=
  negb (truthy_opt (image s)) || negb (truthy (trim (chatInput s)))
  || isGenerating s.

(** [disabled] of a preset style button: [!image || isGenerating] *)
Definition presetDisabled (s : State) : bool :=
  negb (truthy_opt (image s)) || isGenerating s.

(** *** Vocabulary of the statements about the handlers *)

Definition userMessage (text : jsstring) (img : option jsstring)
  : Message.t :=
  {| Message.role := Message.user; Message.text := text;
     Message.image := img |}.

Definition modelMessage (text : jsstring) : Message.t :=
  {| Message.role := Message.model; Message.text := text;
     Message.image := None |}.

(** how many requests to the model API a list of effects contains *)
Definition apiCalls (effects : list Effect) : nat :=
  length (List.filter isApiCall effects).

(** the two tabs for which a [setActiveTab] call exists *)
Definition assignedTab (t : Tab) : Prop := t = chat \/ t = generate.

(** the image URLs the loop of [handleGenerateImage] makes of the parts
    of a response, in order *)
Definition imageUrls (parts : list ResponsePart) : list jsstring :=
  omap (fun part =>
          match inlineData part with
          | Some d => Some (lit "data:image/png;base64," ++ interpolate d)
          | None => None
          end) parts.

(** the message the loop appends for one image *)
Definition ideaMessage (prompt url : jsstring) : Message.t :=
  {| Message.role := Message.model; Message.text := ideaText prompt;
     Message.image := Some url |}.

(** the separator of [split(',')], and strings without it *)
Definition comma : Z := 44%Z.
Definition commaFree (s : jsstring) : Prop := Forall (fun c => c <> comma) s.

(** the requests to the model API among the effects of a history *)
Fixpoint callsOf (history : list event) (s : State) : list Effect :=
  match history with
  | [] => []
  | e :: rest =>
      List.filter isApiCall (snd (step e s)) ++ callsOf rest (fst (step e s))
  end.

(** the continuations among the events of a history *)
Definition isSettle (e : event) : bool :=
  match e with
  | ChatSettled _ | ImageSettled _ _
  | VideoPoll | VideoDone _ | VideoFetched _ | VideoFailed => true
  | _ => false
  end.

End Ui.

(** ** The live voice session: refs, browser objects, playback queue *)

Module Live.
Import JS Pcm.

Inductive ContextState := suspended | running | closed.
Inductive TrackState := live | ended.

(** an [AudioBufferSourceNode] that has been started *)
Record Source := {
  chunk : jsstring;        (* the queue entry it was made from *)
  buffer : AudioBuffer;
  context : nat
}.

(** The refs of the component together with the browser objects they
    point to.  Objects are named by numbers; [processors] records for each
    script processor whether it is still connected, [streams] the state of
    the tracks of each media stream.  [playing] lists the buffer sources
    that were started and whose [onended] has not fired yet, oldest first;
    [started] is the history of the queue entries a source was started
    for. *)
Record Runtime := {
  audioContextRef : option nat;
  mediaStreamRef : option nat;
  processorRef : option nat;
  liveSessionRef : option nat;
  audioQueueRef : list jsstring;
  isPlayingRef : bool;
  contexts : gmap nat ContextState;
  streams : gmap nat (list TrackState);
  processors : gmap nat bool;
  playing : list Source;
  started : list jsstring
}.

(** assignments to [ref.current] and updates of browser objects *)
Definition set_audioContextRef (v : option nat) (r : Runtime) : Runtime :=
  {| audioContextRef := v; mediaStreamRef := mediaStreamRef r;
     processorRef := processorRef r; liveSessionRef := liveSessionRef r;
     audioQueueRef := audioQueueRef r; isPlayingRef := isPlayingRef r;
     contexts := contexts r; streams := streams r;
     processors := processors r; playing := playing r;
     started := started r |}.

Definition set_mediaStreamRef (v : option nat) (r : Runtime) : Runtime :=
  {| audioContextRef := audioContextRef r; mediaStreamRef := v;
     processorRef := processorRef r; liveSessionRef := liveSessionRef r;
     audioQueueRef := audioQueueRef r; isPlayingRef := isPlayingRef r;
     contexts := contexts r; streams := streams r;
     processors := processors r; playing := playing r;
     started := started r |}.

Definition set_processorRef (v : option nat) (r : Runtime) : Runtime :=
  {| audioContextRef := audioContextRef r;
     mediaStreamRef := mediaStreamRef r; processorRef := v;
     liveSessionRef := liveSessionRef r; audioQueueRef := audioQueueRef r;
     isPlayingRef := isPlayingRef r; contexts := contexts r;
     streams := streams r; processors := processors r;
     playing := playing r; started := started r |}.

Definition set_liveSessionRef (v : option nat) (r : Runtime) : Runtime :=
  {| audioContextRef := audioContextRef r;
     mediaStreamRef := mediaStreamRef r; processorRef := processorRef r;
     liveSessionRef := v; audioQueueRef := audioQueueRef r;
     isPlayingRef := isPlayingRef r; contexts := contexts r;
     streams := streams r; processors := processors r;
     playing := playing r; started := started r |}.

Definition set_audioQueueRef (v : list jsstring) (r : Runtime) : Runtime :=
  {| audioContextRef := audioContextRef r;
     mediaStreamRef := mediaStreamRef r; processorRef := processorRef r;
     liveSessionRef := liveSessionRef r; audioQueueRef := v;
     isPlayingRef := isPlayingRef r; contexts := contexts r;
     streams := streams r; processors := processors r;
     playing := playing r; started := started r |}.

Definition set_isPlayingRef (v : bool) (r : Runtime) : Runtime :=
  {| audioContextRef := audioContextRef r;
     mediaStreamRef := mediaStreamRef r; processorRef := processorRef r;
     liveSessionRef := liveSessionRef r; audioQueueRef := audioQueueRef r;
     isPlayingRef := v; contexts := contexts r; streams := streams r;
     processors := processors r; playing := playing r;
     started := started r |}.

Definition set_contexts (v : gmap nat ContextState) (r : Runtime) : Runtime :=
  {| audioContextRef := audioContextRef r;
     mediaStreamRef := mediaStreamRef r; processorRef := processorRef r;
     liveSessionRef := liveSessionRef r; audioQueueRef := audioQueueRef r;
     isPlayingRef := isPlayingRef r; contexts := v; streams := streams r;
     processors := processors r; playing := playing r;
     started := started r |}.

Definition set_streams (v : gmap nat (list TrackState)) (r : Runtime) : Runtime :=
  {| audioContextRef := audioContextRef r;
     mediaStreamRef := mediaStreamRef r; processorRef := processorRef r;
     liveSessionRef := liveSessionRef r; audioQueueRef := audioQueueRef r;
     isPlayingRef := isPlayingRef r; contexts := contexts r; streams := v;
     processors := processors r; playing := playing r;
     started := started r |}.

Definition set_processors (v : gmap nat bool) (r : Runtime) : Runtime :=
  {| audioContextRef := audioContextRef r;
     mediaStreamRef := mediaStreamRef r; processorRef := processorRef r;
     liveSessionRef := liveSessionRef r; audioQueueRef := audioQueueRef r;
     isPlayingRef := isPlayingRef r; contexts := contexts r;
     streams := streams r; processors := v; playing := playing r;
     started := started r |}.

Definition set_playing (v : list Source) (r : Runtime) : Runtime :=
  {| audioContextRef := audioContextRef r;
     mediaStreamRef := mediaStreamRef r; processorRef := processorRef r;
     liveSessionRef := liveSessionRef r; audioQueueRef := audioQueueRef r;
     isPlayingRef := isPlayingRef r; contexts := contexts r;
     streams := streams r; processors := processors r; playing := v;
     started := started r |}.

Definition set_started (v : list jsstring) (r : Runtime) : Runtime :=
  {| audioContextRef := audioContextRef r;
     mediaStreamRef := mediaStreamRef r; processorRef := processorRef r;
     liveSessionRef := liveSessionRef r; audioQueueRef := audioQueueRef r;
     isPlayingRef := isPlayingRef r; contexts := contexts r;
     streams := streams r; processors := processors r;
     playing := playing r; started := v |}.

(** *** Playback *)

(** [source.start()] on a fresh buffer source of the current context *)
Definition startSource (c : jsstring) (b : AudioBuffer) (ctx : nat)
  (r : Runtime) : Runtime :=
  let src := {| chunk := c; buffer := b; context := ctx |} in
  set_started (started r ++ [c]) (set_playing (playing r ++ [src]) r).

(** [processAudioQueue], by recursion on the queue it finds in
    [audioQueueRef]: the recursive calls of the source are made right
    after [shift()] removed the head, without any [await] in between *)
Fixpoint processQueue (queue : list jsstring) (r : Runtime) : Runtime :=
  match queue with
  | [] => set_isPlayingRef false r
  | c :: rest =>
      let r := set_isPlayingRef true r in
      let r := set_audioQueueRef rest r in
      match (if truthy c then audioContextRef r else None) with
      | Some ctx =>
          match decodeChunk c with
          | Some audioBuffer => startSource c audioBuffer ctx r
          | None => processQueue rest r          (* catch *)
          end
      | None => processQueue rest r              (* else *)
      end
  end.

Definition processAudioQueue (r : Runtime) : Runtime :=
  processQueue (audioQueueRef r) r.

Definition playAudioChunk (base64Audio : jsstring) (r : Runtime) : Runtime :=
  let r := set_audioQueueRef (audioQueueRef r ++ [base64Audio]) r in
  if negb (isPlayingRef r) then processAudioQueue r else r.

(** [source.onended] of the [i]-th playing source; [None] if there is no
    such source, in which case the callback cannot fire *)
Definition onended (i : nat) (r : Runtime) : option Runtime :=
  match playing r !! i with
  | Some _ => Some (processAudioQueue (set_playing (delete i (playing r)) r))
  | None => None
  end.

(** *** Messages of the live session *)

Record Blob := { data : option jsstring }.
Record Part := { inlineData : option Blob }.
Record Content := { parts : option (list Part) }.
Record ServerContent := {
  interrupted : option bool;
  modelTurn : option Content
}.
Record LiveServerMessage := { serverContent : option ServerContent }.

(** [msg.serverContent?.interrupted], as a condition *)
Definition isInterrupted (msg : LiveServerMessage) : bool :=
  match serverContent msg ≫= interrupted with
  | Some b => b
  | None => false
  end.

(** [msg.serverContent?.modelTurn?.parts?.[0]?.inlineData?.data] *)
Definition audioDataOf (msg : LiveServerMessage) : option jsstring :=
  sc ← serverContent msg;
  turn ← modelTurn sc;
  ps ← parts turn;
  p ← ps !! 0%nat;
  blob ← inlineData p;
  data blob.

Definition onmessage (msg : LiveServerMessage) (r : Runtime) : Runtime :=
  if isInterrupted msg then
    set_isPlayingRef false (set_audioQueueRef [] r)
  else
    match audioDataOf msg with
    | Some audioData =>
        if truthy audioData then playAudioChunk audioData r else r
    | None => r
    end.

(** the callbacks that drive playback while a session is open *)
Inductive event :=
| OnMessage (msg : LiveServerMessage)
| OnEnded (i : nat).

Definition fire (e : event) (r : Runtime) : option Runtime :=
  match e with
  | OnMessage msg => Some (onmessage msg r)
  | OnEnded i => onended i r
  end.

Fixpoint run (history : list event) (r : Runtime) : option Runtime :=
  match history with
  | [] => Some r
  | e :: rest =>
      match fire e r with
      | Some r' => run rest r'
      | None => None
      end
  end.

(** the queue entries handed to [playAudioChunk] by a history *)
Definition delivered (e : event) : list jsstring :=
  match e with
  | OnMessage msg =>
      if isInterrupted msg then []
      else match audioDataOf msg with
           | Some audioData => if truthy audioData then [audioData] else []
           | None => []
           end
  | OnEnded _ => []
  end.

Definition deliveries (history : list event) : list jsstring :=
  List.concat (List.map delivered history).

(** a queue entry for which [processAudioQueue] starts a source, given
    the value of [audioContextRef.current] *)
Definition playable (ctx : option nat) (c : jsstring) : bool :=
  match ctx, decodeChunk c with
  | Some _, Some _ => truthy c
  | _, _ => false
  end.

(** an interruption that arrives while a source is playing *)
Fixpoint interruptsPlayback (history : list event) (r : Runtime) : bool :=
  match history with
  | [] => false
  | e :: rest =>
      match e, playing r with
      | OnMessage msg, _ :: _ =>
          isInterrupted msg
      | _, _ => false
      end
      || match fire e r with
         | Some r' => interruptsPlayback rest r'
         | None => false
         end
  end.

(** the refs before anything was queued or played; [ctx] is the value of
    [audioContextRef.current] *)
Definition idle (ctx : option nat) : Runtime := {|
  audioContextRef := ctx;
  mediaStreamRef := None;
  processorRef := None;
  liveSessionRef := None;
  audioQueueRef := [];
  isPlayingRef := false;
  contexts := ∅;
  streams := ∅;
  processors := ∅;
  playing := [];
  started := []
|}.

(** *** [stopLiveSession] *)

Record World := {
  ui : Ui.State;
  rt : Runtime
}.

Definition stopLiveSession (w : World) : World :=
  let s := Ui.setIsLiveActive false (ui w) in
  let r := rt w in
  let r :=
    match processorRef r with
    | Some p =>
        (* processorRef.current.disconnect() *)
        let r := set_processors (alter (fun _ => false) p (processors r)) r in
        set_processorRef None r
    | None => r
    end in
  let r :=
    match mediaStreamRef r with
    | Some m =>
        (* getTracks().forEach(track => track.stop()) *)
        let r := set_streams
                   (alter (List.map (fun _ => ended)) m (streams r)) r in
        set_mediaStreamRef None r
    | None => r
    end in
  let r :=
    match audioContextRef r with
    | Some c =>
        (* audioContextRef.current.close() *)
        let r := set_contexts (alter (fun _ => closed) c (contexts r)) r in
        set_audioContextRef None r
    | None => r
    end in
  let r := set_liveSessionRef None r in
  {| ui := s; rt := r |}.

(** *** [startLiveSession]

    The handler runs in segments separated by its [await]s; each segment
    is a function of its own, and the objects the browser creates are
    named by the caller. *)

(** up to [await getUserMedia]: [setIsLiveActive(true)], then
    [audioContextRef.current = new AudioContext(...)]; [c] names the new
    context and [st] is the state it starts in *)
Definition startLiveSession_begin (c : nat) (st : ContextState) (w : World)
  : World :=
  let r := rt w in
  {| ui := Ui.setIsLiveActive true (ui w);
     rt := set_audioContextRef (Some c)
             (set_contexts (<[c := st]> (contexts r)) r) |}.

(** [getUserMedia] resolved with stream [m], whose tracks are live:
    [mediaStreamRef.current = stream] *)
Definition startLiveSession_stream (m tracks : nat) (w : World) : World :=
  let r := rt w in
  {| ui := ui w;
     rt := set_mediaStreamRef (Some m)
             (set_streams (<[m := replicate tracks live]> (streams r)) r) |}.

(** [ai.live.connect] resolved: [liveSessionRef.current = session] *)
Definition startLiveSession_session (session : nat) (w : World) : World :=
  {| ui := ui w; rt := set_liveSessionRef (Some session) (rt w) |}.

(** the [catch] block, entered when an [await] of the handler rejects *)
Definition startLiveSession_catch (w : World) : World :=
  {| ui := Ui.setIsLiveActive false (ui w); rt := rt w |}.

(** the part of [onopen] after the optional [resume()]: a script
    processor [p] is created, connected and stored in [processorRef];
    with [audioContextRef.current] null the non-null assertion fails with
    a TypeError before anything is created *)
Definition onopen (p : nat) (w : World) : World :=
  let r := rt w in
  match audioContextRef r with
  | Some _ =>
      {| ui := ui w;
         rt := set_processorRef (Some p)
                 (set_processors (<[p := true]> (processors r)) r) |}
  | None => w
  end.

(** *** Vocabulary of the statements about playback *)

(** What holds of the refs as long as no interruption arrives during
    playback; [ds] are the queue entries delivered so far. *)
Record Inv (ctx : option nat) (ds : list jsstring) (r : Runtime) : Prop := {
  inv_ctx : audioContextRef r = ctx;
  inv_one : (length (playing r) <= 1)%nat;
  inv_idle : isPlayingRef r = false -> playing r = [] /\ audioQueueRef r = [];
  inv_busy : isPlayingRef r = true -> playing r <> [];
  inv_fifo : started r ++ List.filter (playable ctx) (audioQueueRef r)
             = List.filter (playable ctx) ds
}.

(** every playing source carries the buffer decoded from its queue entry *)
Definition decoded (src : Source) : Prop :=
  decodeChunk (chunk src) = Some (buffer src).

(** a server message that carries audio *)
Definition audioMessage (d : jsstring) : LiveServerMessage :=
  {| serverContent :=
       Some {| interrupted := None;
               modelTurn :=
                 Some {| parts :=
                           Some [ {| inlineData :=
                                       Some {| data := Some d |} |} ] |}
            |} |}.

(** a server message with [interrupted] set, with or without audio *)
Definition interruption (d : option jsstring) : LiveServerMessage :=
  {| serverContent :=
       Some {| interrupted := Some true;
               modelTurn :=
                 Some {| parts :=
                           Some [ {| inlineData :=
                                       Some {| data := d |} |} ] |}
            |} |}.

(** two chunks of one sample each: silence, and full negative scale *)
Definition chunkA : jsstring := lit "AAA=".
Definition chunkB : jsstring := lit "AIA=".

(** the refs while [chunkA] plays and [chunkB] waits *)
Definition busy : Runtime :=
  playAudioChunk chunkB (playAudioChunk chunkA (idle (Some 0%nat))).

(** a session with processor 1, a stream 2 of two live tracks and a
    running context 3 *)
Definition openSession : World := {|
  ui := Ui.setIsLiveActive true Ui.initial;
  rt := {|
    audioContextRef := Some 3%nat;
    mediaStreamRef := Some 2%nat;
    processorRef := Some 1%nat;
    liveSessionRef := Some 4%nat;
    audioQueueRef := [chunkB];
    isPlayingRef := true;
    contexts := {[ 3%nat := running ]};
    streams := {[ 2%nat := [live; live] ]};
    processors := {[ 1%nat := true ]};
    playing := [];
    started := []
  |}
|}.

End Live.

(** * Properties *)

(** ** Bytes and code units *)

Module JSFacts.
Import JS.
Local Open Scope Z_scope.

Lemma byteZ_range b : 0 <= byteZ b < 256.
Proof. unfold byteZ. pose proof (Byte.to_N_bounded b). lia. Qed.

Lemma Zbyte_byteZ b : Zbyte (byteZ b) = b.
Proof.
  unfold Zbyte. rewrite Z.mod_small by apply byteZ_range.
  unfold byteZ. rewrite N2Z.id, Byte.of_to_N. reflexivity.
Qed.

Lemma byteZ_Zbyte v : byteZ (Zbyte v) = v mod 256.
Proof.
  unfold Zbyte, byteZ.
  pose proof (Z.mod_pos_bound v 256 eq_refl) as Hv.
  destruct (Byte.of_N (Z.to_N (v mod 256))) as [b|] eqn:Hb.
  - apply Byte.to_of_N in Hb. rewrite Hb. lia.
  - apply Byte.of_N_None_iff in Hb. lia.
Qed.

End JSFacts.

(** ** Base64 *)

Module Base64Facts.
Import JS Base64 JSFacts.
Local Open Scope Z_scope.

(** induction three elements at a time, the way [sextets] recurses *)
Lemma list_ind3 {A} (P : list A -> Prop) :
  P [] -> (forall a, P [a]) -> (forall a b, P [a; b]) ->
  (forall a b c l, P l -> P (a :: b :: c :: l)) ->
  forall l, P l.
Proof.
  intros H0 H1 H2 H3. fix IH 1.
  intros [|a [|b [|c l]]];
    [apply H0 | apply H1 | apply H2 | apply H3, IH].
Qed.

Ltac split_octets H :=
  repeat match type of H with
         | Forall octet (_ :: _) =>
             let Hx := fresh "Hx" in
             let Hl := fresh "Hl" in
             inversion_clear H as [|? ? Hx Hl]; unfold octet in Hx;
             try split_octets Hl
         end.

Ltac divmod := Z.div_mod_to_equations; lia.

(** a 24-bit number is the sum of its four base-64 digits *)
Lemma group3 n :
  0 <= n < 16777216 ->
  n / 262144 * 262144 + (n / 4096) mod 64 * 4096
    + (n / 64) mod 64 * 64 + n mod 64 = n.
Proof. intros Hn. divmod. Qed.

Lemma sextets_range l : Forall octet l -> Forall sextet (sextets l).
Proof.
  induction l as [|a|a b|a b c l IH] using list_ind3; intros Hl;
    cbn [sextets].
  - constructor.
  - split_octets Hl. unfold sextet. repeat constructor; divmod.
  - split_octets Hl. unfold sextet. repeat constructor; divmod.
  - inversion_clear Hl as [|? ? Ha Hl']. inversion_clear Hl' as [|? ? Hb Hl].
    inversion_clear Hl as [|? ? Hc Hl'].
    repeat (constructor; [unfold octet, sextet in *; divmod|]).
    auto.
Qed.

Lemma octets_sextets l : Forall octet l -> octets (sextets l) = l.
Proof.
  induction l as [|a|a b|a b c l IH] using list_ind3; intros Hl.
  - reflexivity.
  - split_octets Hl. cbn [sextets octets]. f_equal. divmod.
  - split_octets Hl. cbn [sextets octets]. f_equal; [|f_equal]; divmod.
  - inversion_clear Hl as [|? ? Ha Hl']. inversion_clear Hl' as [|? ? Hb Hl].
    inversion_clear Hl as [|? ? Hc Hl'].
    cbn [sextets octets]. unfold octet in *.
    rewrite group3 by lia. rewrite (IH Hl').
    f_equal; [|f_equal; [|f_equal]]; divmod.
Qed.

(** a base64 digit is found again in the alphabet, is not white space and
    is not the padding character *)
Lemma char_of_spec s :
  sextet s ->
  index_of (char_of s) = Some s
  /\ isAsciiWhitespace (char_of s) = false
  /\ (char_of s =? pad) = false.
Proof.
  unfold sextet. intros Hs.
  destruct s as [|p|p]; [repeat split | | lia].
  do 6 (destruct p as [p|p|]; try lia; try (repeat split; reflexivity)).
Qed.

Lemma mapM_index_of sx :
  Forall sextet sx -> mapM index_of (List.map char_of sx) = Some sx.
Proof.
  induction 1 as [|s sx Hs _ IH]; [reflexivity|].
  cbn [List.map mapM]. destruct (char_of_spec s Hs) as (-> & _ & _).
  cbn. rewrite IH. reflexivity.
Qed.

Lemma filter_chars sx :
  Forall sextet sx ->
  List.filter (fun c => negb (isAsciiWhitespace c)) (List.map char_of sx)
  = List.map char_of sx.
Proof.
  induction 1 as [|s sx Hs _ IH]; [reflexivity|].
  cbn [List.map List.filter]. destruct (char_of_spec s Hs) as (_ & -> & _).
  cbn. rewrite IH. reflexivity.
Qed.

Lemma padding_cases n :
  padding n = [] \/ padding n = [pad] \/ padding n = [pad; pad].
Proof. unfold padding. destruct (n mod 3)%nat as [|[|[|?]]]; auto. Qed.

Lemma padding_step n : padding (S (S (S n))) = padding n.
Proof.
  unfold padding. replace (S (S (S n))) with (n + 1 * 3)%nat by lia.
  rewrite Nat.Div0.mod_add. reflexivity.
Qed.

(** the number of digits, and the padding that goes with it *)
Lemma sextets_shape l :
  exists k : nat,
    (length (sextets l) = 4 * k /\ padding (length l) = [])%nat
    \/ (length (sextets l) = 4 * k + 2
        /\ padding (length l) = [pad; pad])%nat
    \/ (length (sextets l) = 4 * k + 3 /\ padding (length l) = [pad])%nat.
Proof.
  induction l as [|a|a b|a b c l IH] using list_ind3.
  - exists 0%nat. left. split; reflexivity.
  - exists 0%nat. right. left. split; reflexivity.
  - exists 0%nat. right. right. split; reflexivity.
  - destruct IH as [k IH]. exists (S k).
    cbn [sextets length]. rewrite padding_step.
    destruct IH as [[E ->] | [[E ->] | [E ->]]]; rewrite E;
      [left | right; left | right; right]; (split; [lia | reflexivity]).
Qed.

Lemma stripPadding_chars sx p :
  Forall sextet sx ->
  p = [] \/ (sx <> [] /\ (p = [pad] \/ p = [pad; pad])) ->
  stripPadding (List.map char_of sx ++ p) = List.map char_of sx.
Proof.
  intros Hsx Hp. unfold stripPadding.
  assert (Hlast : forall x r, rev (List.map char_of sx) = x :: r ->
                              (x =? pad) = false).
  { intros x r Hr.
    assert (Hin : In x (List.map char_of sx)).
    { apply in_rev. rewrite Hr. left. reflexivity. }
    apply in_map_iff in Hin. destruct Hin as (s & <- & Hin).
    rewrite List.Forall_forall in Hsx.
    apply (char_of_spec s (Hsx s Hin)). }
  rewrite rev_app_distr.
  destruct Hp as [-> | (Hne & [-> | ->])]; cbn [rev app].
  - destruct (rev (List.map char_of sx)) as [|x r] eqn:Hr.
    + rewrite app_nil_r. reflexivity.
    + rewrite (Hlast x r eq_refl), app_nil_r. reflexivity.
  - rewrite Z.eqb_refl.
    destruct (rev (List.map char_of sx)) as [|x r] eqn:Hr.
    + apply (f_equal (@length Z)) in Hr.
      rewrite length_rev, length_map in Hr.
      destruct sx; [congruence|discriminate].
    + rewrite (Hlast x r eq_refl), <- Hr, rev_involutive. reflexivity.
  - rewrite !Z.eqb_refl.
    rewrite <- (rev_involutive (List.map char_of sx)) at 2.
    reflexivity.
Qed.

(** [atob(btoa(s)) = s] for every string [btoa] accepts *)
Lemma atob_btoa l : Forall octet l -> btoa l ≫= atob = Some l.
Proof.
  intros Hl. unfold btoa.
  assert (Hall : forallb (fun c => (0 <=? c) && (c <=? 255)) l = true).
  { apply forallb_forall. rewrite List.Forall_forall in Hl.
    intros c Hc. specialize (Hl c Hc). unfold octet in Hl. lia. }
  rewrite Hall. cbn [mbind option_bind].
  pose proof (sextets_range l Hl) as Hsx.
  unfold atob.
  assert (Hf : List.filter (fun c => negb (isAsciiWhitespace c))
                 (List.map char_of (sextets l) ++ padding (length l))
               = List.map char_of (sextets l) ++ padding (length l)).
  { rewrite List.filter_app, filter_chars by assumption. f_equal.
    destruct (padding_cases (length l)) as [-> | [-> | ->]]; reflexivity. }
  rewrite Hf. clear Hf.
  destruct (sextets_shape l) as [k Hk].
  assert (Hlen : (length (List.map char_of (sextets l) ++ padding (length l))
                  mod 4 =? 0)%nat = true).
  { rewrite length_app, length_map. apply Nat.eqb_eq.
    destruct Hk as [[-> ->] | [[-> ->] | [-> ->]]]; cbn [length].
    - rewrite Nat.add_0_r, Nat.mul_comm. apply Nat.Div0.mod_mul.
    - replace (4 * k + 2 + 2)%nat with ((k + 1) * 4)%nat by lia.
      apply Nat.Div0.mod_mul.
    - replace (4 * k + 3 + 1)%nat with ((k + 1) * 4)%nat by lia.
      apply Nat.Div0.mod_mul. }
  rewrite Hlen. clear Hlen.
  rewrite stripPadding_chars; [|assumption|].
  - rewrite length_map.
    assert (Hne : (length (sextets l) mod 4 =? 1)%nat = false).
    { apply Nat.eqb_neq.
      destruct Hk as [[-> _] | [[-> _] | [-> _]]].
      - rewrite Nat.mul_comm, Nat.Div0.mod_mul. discriminate.
      - rewrite Nat.add_comm, Nat.mul_comm, Nat.Div0.mod_add. discriminate.
      - rewrite Nat.add_comm, Nat.mul_comm, Nat.Div0.mod_add. discriminate. }
    rewrite Hne, mapM_index_of by assumption.
    rewrite octets_sextets by assumption. reflexivity.
  - destruct Hk as [[_ ->] | [[Hk ->] | [Hk ->]]]; [left; reflexivity | |];
      right; (split; [intros E; rewrite E in Hk; cbn in Hk; lia | auto]).
Qed.

Lemma fromCharCode_octets b : Forall octet (fromCharCode b).
Proof.
  unfold fromCharCode. apply List.Forall_forall. intros c Hc.
  apply in_map_iff in Hc. destruct Hc as (x & <- & _). apply byteZ_range.
Qed.

Lemma decodeBytes_encodeBytes b : encodeBytes b ≫= decodeBytes = Some b.
Proof.
  pose proof (atob_btoa _ (fromCharCode_octets b)) as H.
  unfold encodeBytes.
  destruct (btoa (fromCharCode b)) as [e|]; [|discriminate].
  cbn [mbind option_bind] in *. unfold decodeBytes. rewrite H. f_equal.
  unfold fromCharCode. rewrite List.map_map.
  rewrite <- (List.map_id b) at 2. apply List.map_ext. apply Zbyte_byteZ.
Qed.

(** C4.  Encoding on the capture path ([btoa] of [String.fromCharCode]
    over the bytes) and decoding on the playback path ([atob], then
    [charCodeAt] per character) are inverse to each other between byte
    arrays and their encodings: for every byte array [b] the encoding
    exists and decodes to [b] unchanged, and encoding what was decoded
    gives the encoding back. *)
Theorem base64_roundtrip (b : list byte) :
  encodeBytes b ≫= decodeBytes = Some b
  /\ (encodeBytes b ≫= decodeBytes) ≫= encodeBytes = encodeBytes b.
Proof.
  split; [apply decodeBytes_encodeBytes|].
  rewrite decodeBytes_encodeBytes. reflexivity.
Qed.

End Base64Facts.

(** ** PCM conversion *)

Module PcmFacts.
Import JS Base64 Pcm JSFacts Base64Facts.

Lemma wrap16_range n : int16 (wrap16 n).
Proof.
  unfold int16, wrap16.
  pose proof (Z.mod_pos_bound n 65536 eq_refl).
  destruct (Z.ltb_spec (n mod 65536) 32768); lia.
Qed.

Lemma wrap16_id v : int16 v -> wrap16 v = v.
Proof.
  unfold int16, wrap16. intros Hv.
  destruct (Z.ltb_spec (v mod 65536) 32768) as [H|H];
    revert H; Z.div_mod_to_equations; lia.
Qed.

(** rounding toward zero does not leave the 16-bit range *)
Lemma truncate_range q :
  (-32768 <= q <= 32767)%Q -> int16 (truncate q).
Proof.
  destruct q as [n d]. unfold Qle, truncate, int16. cbn.
  intros [Hlo Hhi].
  assert (HD : (0 < Z.pos d)%Z) by lia.
  set (D := Z.pos d) in *. clearbody D.
  pose proof (Z.quot_rem' n D) as Hqr.
  destruct (Z_le_gt_dec 0 n) as [Hn|Hn].
  - pose proof (Z.rem_bound_pos n D Hn HD) as Hr.
    set (k := Z.quot n D) in *. set (r := Z.rem n D) in *.
    clearbody k r. nia.
  - assert (Hr : (- D < Z.rem n D <= 0)%Z).
    { rewrite <- (Z.opp_involutive n), Z.rem_opp_l by lia.
      pose proof (Z.rem_bound_pos (- n) D ltac:(lia) HD). lia. }
    set (k := Z.quot n D) in *. set (r := Z.rem n D) in *.
    clearbody k r. nia.
Qed.

Lemma Qltb_true p q : Qltb p q = true <-> (p < q)%Q.
Proof.
  unfold Qltb. rewrite negb_true_iff, <- not_true_iff_false, Qle_bool_iff.
  split; [apply Qnot_le_lt | apply Qlt_not_le].
Qed.

Lemma Qltb_false p q : Qltb p q = false <-> (q <= p)%Q.
Proof.
  unfold Qltb. rewrite negb_false_iff, Qle_bool_iff. reflexivity.
Qed.

(** the clamp yields a number of [-1, 1] unless its argument is NaN *)
Lemma clamp_spec x :
  match clamp x with
  | Fin s => (-1 <= s <= 1)%Q
  | NaN => x = NaN
  | Inf _ => False
  end.
Proof.
  destruct x as [|[|]|q].
  - reflexivity.
  - vm_compute. split; discriminate.
  - vm_compute. split; discriminate.
  - unfold clamp, Math_min. cbn [isNaN orb lt].
    destruct (Qltb q 1) eqn:H1; unfold Math_max; cbn [isNaN orb lt].
    + destruct (Qltb (-1) q) eqn:H2.
      * apply Qltb_true in H1, H2. lra.
      * lra.
    + destruct (Qltb (-1) 1) eqn:H2; lra.
Qed.

Lemma scale_range s :
  (-1 <= s <= 1)%Q ->
  exists v, scale (Fin s) = Fin v /\ (-32768 <= v <= 32767)%Q
            /\ v = (s * (if Qltb s 0 then 32768 else 32767))%Q.
Proof.
  intros Hs. unfold scale. cbn [lt].
  destruct (Qltb s 0) eqn:H0; cbn [mul]; eexists; (split; [reflexivity|]);
    (split; [|reflexivity]).
  - apply Qltb_true in H0. lra.
  - apply Qltb_false in H0. lra.
Qed.

Lemma convertSample_int16 x : int16 (convertSample x).
Proof.
  unfold convertSample, toInt16.
  destruct (scale (clamp x)); try (unfold int16; lia). apply wrap16_range.
Qed.

Lemma convertSample_spec x :
  match clamp x with
  | Fin s =>
      (-1 <= s <= 1)%Q
      /\ convertSample x
         = truncate (s * (if Qltb s 0 then 32768 else 32767))
  | NaN => x = NaN /\ convertSample x = 0%Z
  | Inf _ => False
  end.
Proof.
  unfold convertSample. pose proof (clamp_spec x) as Hc.
  destruct (clamp x) as [| |s];
    [split; [assumption|reflexivity] | assumption |].
  split; [assumption|].
  destruct (scale_range s Hc) as (v & -> & Hv & ->).
  cbn [toInt16]. apply wrap16_id, truncate_range, Hv.
Qed.

(** the two bytes of a sample read back as that sample *)
Lemma int16Bytes_read v : int16 v -> getInt16 (int16Bytes v) 0 = Some v.
Proof.
  unfold int16. intros Hv. unfold getInt16, int16Bytes.
  cbn [lookup list_lookup]. rewrite !byteZ_Zbyte. f_equal.
  assert (E : (v mod 256 + 256 * ((v / 256) mod 256) = v mod 65536)%Z)
    by (Z.div_mod_to_equations; lia).
  rewrite E. unfold wrap16. rewrite Z.mod_mod by lia.
  destruct (Z.ltb_spec (v mod 65536) 32768) as [H|H];
    revert H; Z.div_mod_to_equations; lia.
Qed.

(** the three regimes of the clamp on a finite sample *)
Lemma clamp_Fin_cases q :
  ((q <= -1)%Q /\ clamp (Fin q) = Fin (-1))
  \/ ((-1 < q)%Q /\ (q < 1)%Q /\ clamp (Fin q) = Fin q)
  \/ ((1 <= q)%Q /\ clamp (Fin q) = Fin 1).
Proof.
  unfold clamp, Math_min. cbn [isNaN orb lt].
  destruct (Qltb q 1) eqn:H1; unfold Math_max; cbn [isNaN orb lt].
  - apply Qltb_true in H1. destruct (Qltb (-1) q) eqn:H2.
    + apply Qltb_true in H2. right. left. auto.
    + apply Qltb_false in H2. left. auto.
  - apply Qltb_false in H1. right. right. split; [assumption|].
    reflexivity.
Qed.

Lemma convertSample_inner q :
  (-1 < q)%Q -> (q < 1)%Q ->
  convertSample (Fin q)
  = truncate (q * (if Qltb q 0 then 32768 else 32767)).
Proof.
  intros Hlo Hhi. pose proof (convertSample_spec (Fin q)) as H.
  destruct (clamp_Fin_cases q) as [[H1 _] | [(_ & _ & E) | [H1 _]]];
    [lra | | lra].
  rewrite E in H. apply H.
Qed.

Lemma convertSample_low q :
  (q <= -1)%Q -> convertSample (Fin q) = (-32768)%Z.
Proof.
  intros Hq. unfold convertSample.
  destruct (clamp_Fin_cases q) as [[_ E] | [(H1 & _) | [H1 _]]];
    [| lra | lra].
  rewrite E. reflexivity.
Qed.

Lemma convertSample_high q : (1 <= q)%Q -> convertSample (Fin q) = 32767%Z.
Proof.
  intros Hq. unfold convertSample.
  destruct (clamp_Fin_cases q) as [[H1 _] | [(_ & H1 & _) | [_ E]]];
    [lra | lra |].
  rewrite E. reflexivity.
Qed.

(** rounding toward zero is the floor of a non-negative number and the
    ceiling of a non-positive one *)
Lemma truncate_floor q : (0 <= q)%Q -> truncate q = Qfloor q.
Proof.
  destruct q as [n d]. unfold Qle, truncate, Qfloor. cbn. intros Hn.
  apply Z.quot_div_nonneg; lia.
Qed.

Lemma truncate_ceiling q : (q <= 0)%Q -> truncate q = Qceiling q.
Proof.
  destruct q as [n d]. unfold Qle, truncate, Qceiling, Qfloor. cbn.
  intros Hn.
  rewrite <- (Z.opp_involutive n) at 1. rewrite Z.quot_opp_l by lia.
  f_equal. apply Z.quot_div_nonneg; lia.
Qed.

Lemma pcmBytes_length vs :
  length (List.concat (List.map int16Bytes vs)) = (2 * length vs)%nat.
Proof. induction vs as [|v vs IH]; cbn in *; lia. Qed.

(** sample [i] of a sample array is read back from byte offset [2 * i] *)
Lemma pcmBytes_read vs : forall i v,
  Forall int16 vs -> vs !! i = Some v ->
  getInt16 (List.concat (List.map int16Bytes vs)) (2 * i) = Some v.
Proof.
  induction vs as [|w vs IH]; intros i v Hall Hi; [discriminate|].
  inversion_clear Hall as [|? ? Hw Hvs].
  destruct i as [|i].
  - injection Hi as ->. pose proof (int16Bytes_read v Hw) as H.
    unfold getInt16, int16Bytes in *. cbn in *. exact H.
  - cbn in Hi. specialize (IH i v Hvs Hi).
    replace (2 * S i)%nat with (S (S (2 * i))) by lia.
    unfold getInt16 in *. cbn [List.map List.concat int16Bytes app].
    cbn [lookup list_lookup]. exact IH.
Qed.

Lemma convertSample_all inputData :
  Forall int16 (List.map convertSample inputData).
Proof.
  apply List.Forall_forall. intros v Hv. apply in_map_iff in Hv.
  destruct Hv as (y & <- & _). apply convertSample_int16.
Qed.

Lemma pcm_lookup inputData i x :
  inputData !! i = Some x ->
  List.map convertSample inputData !! i = Some (convertSample x).
Proof.
  intros Hi. change (List.map convertSample inputData)
    with (convertSample <$> inputData).
  rewrite list_lookup_fmap, Hi. reflexivity.
Qed.

(** rounding toward zero, said without the function that computes it *)
Lemma truncate_bounds y :
  ((0 <= y)%Q ->
   (inject_Z (truncate y) <= y)%Q /\ (y < inject_Z (truncate y + 1))%Q)
  /\ ((y <= 0)%Q ->
      (inject_Z (truncate y - 1) < y)%Q /\ (y <= inject_Z (truncate y))%Q).
Proof.
  split; intros Hy.
  - rewrite (truncate_floor y Hy). split; [apply Qfloor_le|apply Qlt_floor].
  - rewrite (truncate_ceiling y Hy).
    split; [apply Qceiling_lt|apply Qle_ceiling].
Qed.

(** C3.  In [onaudioprocess] every input sample [x] is first clamped to
    [-1, 1]: a sample inside the interval is kept, a sample of 1 or more
    (positive infinity included) becomes 1 and a sample of -1 or less
    becomes -1; a NaN stays NaN and is stored as 0.  The clamped value is
    multiplied by 0x8000 if it is negative and by 0x7FFF otherwise, and
    the product is stored as the integer next to it toward zero, without
    wrapping around; so every sample sent to the live session lies in
    [-32768, 32767].  The buffer is sent as base64 text from which sample
    [i] is read back at byte offset [2 * i].  [startLiveSession] creates
    the capture AudioContext with 16000 Hz and asks [getUserMedia] for
    one channel at 16000 Hz. *)
Theorem capture_conversion (x : number) (inputData : list number)
  (s : Ui.State) :
  match x with
  | NaN => clamp x = NaN /\ convertSample x = 0%Z
  | Inf negative =>
      clamp x = Fin (if negative then -1 else 1)
      /\ convertSample x = (if negative then -32768 else 32767)%Z
  | Fin q =>
      ((q <= -1)%Q -> clamp x = Fin (-1) /\ convertSample x = (-32768)%Z)
      /\ ((1 <= q)%Q -> clamp x = Fin 1 /\ convertSample x = 32767%Z)
      /\ ((-1 < q)%Q -> (q < 0)%Q ->
          clamp x = Fin q
          /\ scale (Fin q) = Fin (q * 32768)
          /\ (inject_Z (convertSample x - 1) < q * 32768)%Q
          /\ (q * 32768 <= inject_Z (convertSample x))%Q)
      /\ ((0 <= q)%Q -> (q < 1)%Q ->
          clamp x = Fin q
          /\ scale (Fin q) = Fin (q * 32767)
          /\ (inject_Z (convertSample x) <= q * 32767)%Q
          /\ (q * 32767 < inject_Z (convertSample x + 1))%Q)
  end
  /\ (-32768 <= convertSample x <= 32767)%Z
  /\ (exists msg bytes,
        onaudioprocess inputData = Some msg
        /\ mimeType msg = lit "audio/pcm;rate=16000"
        /\ decodeBytes (data msg) = Some bytes
        /\ length bytes = (2 * length inputData)%nat
        /\ forall i y, inputData !! i = Some y ->
             getInt16 bytes (2 * i) = Some (convertSample y))
  /\ Forall int16 (List.map convertSample inputData)
  /\ snd (Ui.step Ui.VoiceStart s)
     = [Ui.newAudioContext {| ctxSampleRate := 16000 |};
        Ui.getUserMedia {| channelCount := 1; micSampleRate := 16000 |}].
Proof.
  split.
  { destruct x as [|[|]|q]; [split; reflexivity ..|].
    split; [|split; [|split]].
    - intros Hq. split; [|apply convertSample_low, Hq].
      destruct (clamp_Fin_cases q) as [[_ E] | [(H1 & _) | [H1 _]]];
        [exact E | lra | lra].
    - intros Hq. split; [|apply convertSample_high, Hq].
      destruct (clamp_Fin_cases q) as [[H1 _] | [(_ & H1 & _) | [_ E]]];
        [lra | lra | exact E].
    - intros Hlo Hneg.
      assert (Hb : Qltb q 0 = true) by (apply Qltb_true, Hneg).
      split.
      { destruct (clamp_Fin_cases q) as [[H1 _] | [(_ & _ & E) | [H1 _]]];
          [lra | exact E | lra]. }
      split; [unfold scale; cbn [lt]; rewrite Hb; reflexivity|].
      rewrite convertSample_inner by lra. rewrite Hb.
      apply (proj2 (truncate_bounds (q * 32768))). lra.
    - intros Hpos Hhi.
      assert (Hb : Qltb q 0 = false) by (apply Qltb_false, Hpos).
      split.
      { destruct (Qlt_le_dec 0 q) as [H0|H0].
        - destruct (clamp_Fin_cases q)
            as [[H1 _] | [(_ & _ & E) | [H1 _]]]; [lra | exact E | lra].
        - destruct (clamp_Fin_cases q)
            as [[H1 _] | [(_ & _ & E) | [H1 _]]]; [lra | exact E | lra]. }
      split; [unfold scale; cbn [lt]; rewrite Hb; reflexivity|].
      rewrite convertSample_inner by lra. rewrite Hb.
      apply (proj1 (truncate_bounds (q * 32767))). lra. }
  split; [apply convertSample_int16|].
  split.
  { unfold onaudioprocess.
    set (pcm := List.map convertSample inputData).
    pose proof (decodeBytes_encodeBytes
                  (List.concat (List.map int16Bytes pcm))) as H.
    destruct (encodeBytes _) as [e|]; [|discriminate].
    cbn [mbind option_bind] in H.
    eexists. exists (List.concat (List.map int16Bytes pcm)).
    split; [reflexivity|]. split; [reflexivity|]. split; [exact H|]. split.
    - rewrite pcmBytes_length. unfold pcm. rewrite length_map. reflexivity.
    - intros i y Hi. apply pcmBytes_read;
        [apply convertSample_all | apply pcm_lookup, Hi]. }
  split; [apply convertSample_all | reflexivity].
Qed.

Lemma capture_conversion_witness :
  (0 <= 1 # 2)%Q /\ (1 # 2 < 1)%Q /\ (1 <= 2)%Q
  /\ clamp (Fin (1 # 2)) = Fin (1 # 2)
  /\ clamp (Fin 2) = Fin 1
  /\ convertSample (Fin 2) = 32767%Z.
Proof.
  assert (H0 : (0 <= 1 # 2)%Q) by (unfold Qle; cbn; lia).
  assert (H1 : (1 # 2 < 1)%Q) by (unfold Qlt; cbn; lia).
  assert (H2 : (1 <= 2)%Q) by (unfold Qle; cbn; lia).
  destruct (capture_conversion (Fin (1 # 2)) [] Ui.initial)
    as ((_ & _ & _ & Hin) & _).
  destruct (capture_conversion (Fin 2) [] Ui.initial)
    as ((_ & Hout & _) & _).
  exact (conj H0 (conj H1 (conj H2
           (conj (proj1 (Hin H0 H1)) (Hout H2))))).
Defined.

(** the loop invariant of [fillSamples]: the length is kept, entries
    below [i] are kept, and entry [j] of the next [n] holds the sample
    read at byte offset [2 * j] *)
Lemma fillSamples_spec bytes n : forall i f f',
  fillSamples bytes n i f = Some f' ->
  length f' = length f
  /\ (forall j, (j < i)%nat -> f' !! j = f !! j)
  /\ (forall j, (i <= j < i + n)%nat ->
        exists v, getInt16 bytes (j * 2) = Some v
                  /\ ((j < length f)%nat -> f' !! j = Some (sampleOf v))).
Proof.
  induction n as [|n IH]; intros i f f' H; cbn [fillSamples] in H.
  - injection H as <-. repeat split; intros; lia.
  - destruct (getInt16 bytes (i * 2)) as [v|] eqn:Hv; [|discriminate].
    destruct (IH _ _ _ H) as (Hlen & Hlow & Hhigh).
    rewrite length_insert in Hlen. split; [assumption|]. split.
    + intros j Hj. rewrite Hlow by lia. apply list_lookup_insert_ne. lia.
    + intros j Hj. destruct (decide (j = i)) as [->|Hne].
      * exists v. split; [assumption|]. intros Hi.
        rewrite Hlow by lia. apply list_lookup_insert_eq. assumption.
      * destruct (Hhigh j ltac:(lia)) as (w & Hw & Hj').
        exists w. split; [assumption|]. intros Hi. apply Hj'.
        rewrite length_insert. assumption.
Qed.

Lemma getInt16_Some bytes off v :
  getInt16 bytes off = Some v -> (off + 2 <= length bytes)%nat /\ int16 v.
Proof.
  unfold getInt16. destruct (bytes !! off) eqn:H0; [|discriminate].
  destruct (bytes !! S off) as [hi|] eqn:H1; [|discriminate].
  intros [= <-]. split; [|apply wrap16_range].
  apply lookup_lt_Some in H1. lia.
Qed.

Lemma getInt16_total bytes off :
  (off + 2 <= length bytes)%nat -> is_Some (getInt16 bytes off).
Proof.
  intros H. unfold getInt16.
  destruct (lookup_lt_is_Some_2 bytes off ltac:(lia)) as [lo ->].
  destruct (lookup_lt_is_Some_2 bytes (S off) ltac:(lia)) as [hi ->].
  eexists. reflexivity.
Qed.

Lemma fillSamples_total bytes n : forall i f,
  ((i + n) * 2 <= length bytes)%nat -> is_Some (fillSamples bytes n i f).
Proof.
  induction n as [|n IH]; intros i f H; cbn [fillSamples].
  - eexists. reflexivity.
  - destruct (getInt16_total bytes (i * 2) ltac:(lia)) as [v ->].
    apply IH. lia.
Qed.


Lemma buffer_of_samples float32 rate :
  createBuffer 1 (length float32) rate ≫= setChannelData 0 float32
  = match float32 with
    | [] => None
    | _ :: _ => Some {| sampleRate := rate; channels := [float32] |}
    end.
Proof.
  destruct float32 as [|x f]; [reflexivity|].
  set (l := x :: f). unfold createBuffer.
  change (length l) with (S (length f)) at 1. cbn [mbind option_bind].
  unfold setChannelData. cbn [channels sampleRate].
  change (replicate 1 ?c) with [c].
  cbn [lookup list_lookup insert list_insert].
  change (S (length f)) with (length l).
  rewrite length_replicate, Nat.leb_refl, drop_ge, app_nil_r;
    [reflexivity | rewrite length_replicate; lia].
Qed.

(** what [decodeChunk] hands to the buffer source *)
Lemma decodeChunk_Some chunk buf :
  decodeChunk chunk = Some buf ->
  exists bytes float32,
    decodeBytes chunk = Some bytes
    /\ buf = {| sampleRate := 24000; channels := [float32] |}
    /\ (0 < length float32)%nat
    /\ (length bytes = 2 * length float32)%nat
    /\ forall i, (i < length float32)%nat ->
         exists v, getInt16 bytes (2 * i) = Some v
                   /\ float32 !! i = Some (sampleOf v).
Proof.
  unfold decodeChunk. intros H.
  destruct (decodeBytes chunk) as [bytes|]; [|discriminate].
  cbn [mbind option_bind] in H.
  destruct (fillSamples _ _ _ _) as [float32|] eqn:Hfill; [|discriminate].
  cbn [mbind option_bind] in H.
  destruct (fillSamples_spec _ _ _ _ _ Hfill) as (Hlen & _ & Hs).
  rewrite length_replicate in Hlen.
  assert (Heven : (length bytes = 2 * (length bytes / 2))%nat).
  { destruct (Nat.eq_dec (length bytes) 0) as [E|E]; [rewrite E; reflexivity|].
    destruct (Hs ((length bytes + 1) / 2 - 1)%nat) as (v & Hv & _).
    - assert (0 < (length bytes + 1) / 2)%nat; [|lia].
      apply Nat.div_str_pos. lia.
    - apply getInt16_Some in Hv. destruct Hv as [Hv _].
      pose proof (Nat.div_mod_eq (length bytes + 1) 2).
      pose proof (Nat.div_mod_eq (length bytes) 2).
      pose proof (Nat.mod_upper_bound (length bytes + 1) 2).
      pose proof (Nat.mod_upper_bound (length bytes) 2). lia. }
  change (createBuffer 1 (length float32) 24000
          ≫= setChannelData 0 float32 = Some buf) in H.
  rewrite buffer_of_samples in H.
  destruct float32 as [|x float32'] eqn:Hf32; [discriminate|].
  rewrite <- Hf32 in *. injection H as <-.
  assert (Hpos : (0 < length float32)%nat) by (rewrite Hf32; cbn; lia).
  clear Hf32.
  exists bytes, float32. split; [reflexivity|]. split; [reflexivity|].
  split; [lia|]. split; [lia|].
  intros i Hi. destruct (Hs i) as (v & Hv & Hget).
  { pose proof (Nat.div_mod_eq (length bytes + 1) 2).
    pose proof (Nat.mod_upper_bound (length bytes + 1) 2). lia. }
  exists v. rewrite Nat.mul_comm. split; [assumption|].
  apply Hget. rewrite length_replicate. lia.
Qed.

(** a chunk of a positive even number of bytes is decoded *)
Lemma decodeChunk_total chunk bytes :
  decodeBytes chunk = Some bytes ->
  (0 < length bytes)%nat -> Nat.Even (length bytes) ->
  is_Some (decodeChunk chunk).
Proof.
  intros Hb Hpos [k Hk]. unfold decodeChunk. rewrite Hb.
  cbn [mbind option_bind].
  assert (Hdiv : ((length bytes + 1) / 2 = k)%nat).
  { rewrite Hk. symmetry. apply (Nat.div_unique _ 2 k 1); lia. }
  assert (Hdiv' : (length bytes / 2 = k)%nat).
  { rewrite Hk. symmetry. apply (Nat.div_unique _ 2 k 0); lia. }
  rewrite Hdiv, Hdiv'.
  destruct (fillSamples_total bytes k 0 (replicate k 0%Q) ltac:(lia))
    as [float32 Hf].
  rewrite Hf. cbn [mbind option_bind].
  destruct (fillSamples_spec _ _ _ _ _ Hf) as (Hlen & _).
  rewrite length_replicate in Hlen.
  change (is_Some (createBuffer 1 (length float32) 24000
                   ≫= setChannelData 0 float32)).
  rewrite buffer_of_samples.
  destruct float32; [cbn in Hlen; lia | eexists; reflexivity].
Qed.



End PcmFacts.

(** ** Chat, upload and tabs *)

Module UiFacts.
Import JS Ui.

(** C7.  [handleImageUpload] starts a read of the first selected file and
    changes nothing else; without a file it does nothing at all.  When
    the reader finishes, the image state is [reader.result] (the data URL
    of the file), the active tab is 'generate', and exactly two messages
    are appended in order: a user message carrying the image, then the
    fixed model reply.  Nothing else changes. *)
Theorem handleImageUpload_spec files result s :
  match files ≫= head with
  | Some file => handleImageUpload files s = (s, [readAsDataURL file])
  | None => handleImageUpload files s = (s, [])
  end
  /\ onloadend result s =
     {| image := result;
        generatedImage := generatedImage s;
        generatedVideo := generatedVideo s;
        isGenerating := isGenerating s;
        chatInput := chatInput s;
        messages := messages s ++ [userMessage uploadedText result;
                                    modelMessage uploadReply];
        activeTab := generate;
        isLiveActive := isLiveActive s |}.
Proof.
  split.
  - unfold handleImageUpload. destruct (files ≫= head); reflexivity.
  - unfold onloadend, addMessage, setMessages. cbn.
    rewrite <- app_assoc. reflexivity.
Qed.

Ltac chat_outcome o :=
  let t := fresh "t" in
  destruct o as [[t|]|]; cbn; [destruct (truthy t)| |].

(** C6.  When the guard of [handleSendMessage] lets the message through,
    the handler calls the API exactly once whatever the outcome, and
    [isGenerating] is false when it completes.  If the call throws, the
    chat grows by the user message and one fallback model message; the
    continuation itself appends exactly the fallback, issues no further
    call, and resets [isGenerating] also when other handlers ran while
    the request was in flight. *)
Theorem handleSendMessage_failure s :
  nothingToSend s = false ->
  (forall o,
     isGenerating (fst (handleSendMessage o s)) = false
     /\ apiCalls (snd (handleSendMessage o s)) = 1%nat)
  /\ messages (fst (handleSendMessage chatRejected s))
     = messages s ++ [userMessage (chatInput s) None;
                      modelMessage chatFallback]
  /\ (forall s1,
        messages (fst (handleSendMessage_settle chatRejected s1))
        = messages s1 ++ [modelMessage chatFallback]
        /\ apiCalls (snd (handleSendMessage_settle chatRejected s1)) = 0%nat)
  /\ (forall o s1,
        isGenerating (fst (handleSendMessage_settle o s1)) = false).
Proof.
  intros Hs. unfold handleSendMessage, handleSendMessage_call. rewrite Hs.
  split; [|split; [|split]].
  - intros o. split.
    + chat_outcome o; reflexivity.
    + chat_outcome o; destruct (image s) as [img|];
        try destruct (truthy img); reflexivity.
  - cbn. rewrite <- app_assoc. reflexivity.
  - intros s1. split; reflexivity.
  - intros o s1. chat_outcome o; reflexivity.
Qed.

Lemma handleSendMessage_failure_witness :
  nothingToSend (setChatInput (lit "hello") initial) = false
  /\ messages (fst (handleSendMessage chatRejected
                      (setChatInput (lit "hello") initial)))
     = messages initial ++ [userMessage (lit "hello") None;
                            modelMessage chatFallback].
Proof.
  split; [reflexivity|].
  apply (handleSendMessage_failure (setChatInput (lit "hello") initial)).
  reflexivity.
Defined.

(** C10.  If [chatInput.trim()] is empty and [image] is null,
    [handleSendMessage] returns at once: the state is the one it was
    called in and no request is issued. *)
Theorem handleSendMessage_noop s :
  trim (chatInput s) = [] -> image s = None ->
  handleSendMessage_call s = (s, [])
  /\ step Send s = (s, [])
  /\ forall o, handleSendMessage o s = (s, []).
Proof.
  intros Ht Hi.
  assert (H : nothingToSend s = true)
    by (unfold nothingToSend; rewrite Ht, Hi; reflexivity).
  unfold handleSendMessage. cbn [step].
  unfold handleSendMessage_call. rewrite H. repeat split.
Qed.

Lemma handleSendMessage_noop_witness :
  trim (chatInput (setChatInput (lit "   ") initial)) = []
  /\ image (setChatInput (lit "   ") initial) = None
  /\ handleSendMessage_call (setChatInput (lit "   ") initial)
     = (setChatInput (lit "   ") initial, []).
Proof.
  split; [reflexivity|]. split; [reflexivity|].
  apply (handleSendMessage_noop (setChatInput (lit "   ") initial));
    reflexivity.
Defined.

Lemma extractImages_activeTab prompt parts : forall found s,
  activeTab (snd (extractImages prompt parts found s)) = activeTab s.
Proof.
  induction parts as [|p parts IH]; intros found s; cbn [extractImages].
  - reflexivity.
  - destruct (inlineData p) as [d|]; [|apply IH].
    cbn zeta. rewrite IH. reflexivity.
Qed.

Ltac image_guard s :=
  let img := fresh "img" in
  unfold handleGenerateImage_call;
  destruct (image s) as [img|]; [destruct (truthy img)|]; reflexivity.

(** a handler leaves the tab alone or sets it to 'chat' or 'generate' *)
Lemma step_activeTab e s :
  activeTab (fst (step e s)) = activeTab s
  \/ assignedTab (activeTab (fst (step e s))).
Proof.
  destruct e; cbn [step].
  - left. unfold handleImageUpload. destruct (files ≫= head); reflexivity.
  - right. right. reflexivity.
  - left. reflexivity.
  - left. unfold handleSendMessage_call.
    destruct (nothingToSend s); reflexivity.
  - left. chat_outcome o; reflexivity.
  - left. image_guard s.
  - left. image_guard s.
  - left. image_guard s.
  - left. destruct o as [[ps|]|]; cbn [handleGenerateImage_settle];
      try reflexivity.
    pose proof (extractImages_activeTab prompt ps false s) as H.
    destruct (extractImages prompt ps false s) as [found s'].
    cbn [snd] in H. destruct found; cbn; exact H.
  - left. unfold handleGenerateVideo_call.
    destruct (negb _ && negb _); [reflexivity|].
    destruct (sourceImage s) as [src|]; [destruct (truthy src)|];
      reflexivity.
  - left. reflexivity.
  - left. unfold handleGenerateVideo_done.
    destruct videoUri as [uri|]; [destruct (truthy uri)|]; reflexivity.
  - left. reflexivity.
  - left. reflexivity.
  - left. reflexivity.
  - right. right. reflexivity.
  - right. left. reflexivity.
  - right. right. reflexivity.
  - left. reflexivity.
  - left. reflexivity.
  - left. reflexivity.
  - left. reflexivity.
Qed.

Lemma run_snoc history e s :
  run (history ++ [e]) s = fst (step e (run history s)).
Proof. unfold run. rewrite fold_left_app. reflexivity. Qed.

(** C9.  After every history of events [activeTab] is 'chat' or
    'generate', never 'video': each handler either keeps the tab or
    assigns one of the two. *)
Theorem activeTab_never_video history :
  assignedTab (activeTab (run history initial))
  /\ activeTab (run history initial) <> video
  /\ forall e s, activeTab (fst (step e s)) = activeTab s
                \/ assignedTab (activeTab (fst (step e s))).
Proof.
  assert (H : assignedTab (activeTab (run history initial))).
  { induction history as [|e history IH] using rev_ind.
    - left. reflexivity.
    - rewrite run_snoc.
      destruct (step_activeTab e (run history initial)) as [-> | H];
        assumption. }
  split; [exact H|]. split; [|exact step_activeTab].
  destruct H as [-> | ->]; discriminate.
Qed.

End UiFacts.

(** ** The live session *)

Module LiveFacts.
Import JS Pcm Live.

(** [processAudioQueue] called while nothing plays: it starts at most one
    source, the first playable entry of the queue, and drops the entries
    before it *)
Lemma processQueue_spec q : forall r,
  audioQueueRef r = q -> playing r = [] ->
  let r' := processQueue q r in
  audioContextRef r' = audioContextRef r
  /\ (length (playing r') <= 1)%nat
  /\ (isPlayingRef r' = false -> playing r' = [] /\ audioQueueRef r' = [])
  /\ (isPlayingRef r' = true -> playing r' <> [])
  /\ started r'
       ++ List.filter (playable (audioContextRef r)) (audioQueueRef r')
     = started r ++ List.filter (playable (audioContextRef r)) q.
Proof.
  induction q as [|c rest IH]; intros r Hq Hp; cbn [processQueue].
  - cbn. rewrite Hp, Hq. repeat split; auto; try discriminate.
  - cbn zeta.
    set (r1 := set_audioQueueRef rest (set_isPlayingRef true r)).
    assert (Hctx1 : audioContextRef r1 = audioContextRef r) by reflexivity.
    specialize (IH r1 eq_refl Hp). cbn zeta in IH. rewrite Hctx1 in IH.
    unfold playable at 2. cbn [List.filter].
    destruct (truthy c) eqn:Ht.
    + rewrite Hctx1. destruct (audioContextRef r) as [ctx|] eqn:Hctx.
      * destruct (decodeChunk c) as [buf|] eqn:Hd.
        -- cbn. rewrite Hp, Hctx. cbn. rewrite <- app_assoc.
           repeat split; auto; try discriminate.
        -- fold (playable (Some ctx)). exact IH.
      * exact IH.
    + destruct (audioContextRef r), (decodeChunk c); exact IH.
Qed.

(** the buffer of a source is the one decoded from its queue entry *)
Lemma processQueue_decoded q : forall r,
  Forall decoded (playing r) -> Forall decoded (playing (processQueue q r)).
Proof.
  induction q as [|c rest IH]; intros r Hr; cbn [processQueue].
  - exact Hr.
  - cbn zeta.
    set (r1 := set_audioQueueRef rest (set_isPlayingRef true r)).
    assert (H1 : Forall decoded (playing r1)) by exact Hr.
    destruct (truthy c); [|apply IH, H1].
    destruct (audioContextRef r1) as [ctx|]; [|apply IH, H1].
    destruct (decodeChunk c) as [buf|] eqn:Hd; [|apply IH, H1].
    cbn. apply Forall_app. split; [exact Hr|].
    constructor; [exact Hd | constructor].
Qed.

Lemma playAudioChunk_inv ctx ds c r :
  Inv ctx ds r -> Inv ctx (ds ++ [c]) (playAudioChunk c r).
Proof.
  intros [Hctx Hone Hidle Hbusy Hfifo]. unfold playAudioChunk.
  set (r1 := set_audioQueueRef (audioQueueRef r ++ [c]) r).
  change (isPlayingRef r1) with (isPlayingRef r).
  destruct (isPlayingRef r) eqn:Hp; cbn [negb].
  - split.
    + exact Hctx.
    + exact Hone.
    + intros H. change (isPlayingRef r = false) in H. congruence.
    + intros _. apply Hbusy. reflexivity.
    + change (audioQueueRef r1) with (audioQueueRef r ++ [c]).
      change (started r1) with (started r).
      rewrite !List.filter_app, app_assoc, Hfifo. reflexivity.
  - destruct (Hidle eq_refl) as [Hnone Hq].
    pose proof (processQueue_spec (audioQueueRef r1) r1 eq_refl Hnone) as H.
    cbn zeta in H. destruct H as (H1 & H2 & H3 & H4 & H5).
    change (audioContextRef r1) with (audioContextRef r) in *.
    rewrite Hctx in *. split; try assumption.
    unfold processAudioQueue. rewrite H5.
    change (audioQueueRef r1) with (audioQueueRef r ++ [c]).
    change (started r1) with (started r).
    rewrite !List.filter_app, app_assoc, Hfifo. reflexivity.
Qed.

Lemma onmessage_inv ctx ds msg r :
  Inv ctx ds r ->
  (isInterrupted msg = true -> playing r = []) ->
  Inv ctx (ds ++ delivered (OnMessage msg)) (onmessage msg r).
Proof.
  intros HI Hint. unfold onmessage, delivered.
  destruct (isInterrupted msg).
  - destruct HI as [Hctx Hone Hidle Hbusy Hfifo].
    specialize (Hint eq_refl). rewrite app_nil_r.
    destruct (isPlayingRef r) eqn:Hp; [destruct (Hbusy eq_refl Hint)|].
    destruct (Hidle eq_refl) as [_ Hq].
    split; cbn; auto; try discriminate. rewrite Hq in Hfifo. exact Hfifo.
  - destruct (audioDataOf msg) as [d|]; [destruct (truthy d)|];
      rewrite ?app_nil_r; auto using playAudioChunk_inv.
Qed.

Lemma onended_inv ctx ds i r r' :
  Inv ctx ds r -> onended i r = Some r' -> Inv ctx ds r'.
Proof.
  intros [Hctx Hone Hidle Hbusy Hfifo]. unfold onended.
  destruct (playing r !! i) as [src|] eqn:Hi; [|discriminate].
  intros [= <-].
  assert (Hnone : delete i (playing r) = []).
  { destruct (playing r) as [|s [|s' l]]; [discriminate| |cbn in Hone; lia].
    destruct i; [reflexivity|discriminate]. }
  set (r1 := set_playing (delete i (playing r)) r).
  pose proof (processQueue_spec (audioQueueRef r1) r1 eq_refl Hnone) as H.
  cbn zeta in H. destruct H as (H1 & H2 & H3 & H4 & H5).
  change (audioContextRef r1) with (audioContextRef r) in *.
  rewrite Hctx in *. split; try assumption.
  unfold processAudioQueue. rewrite H5. exact Hfifo.
Qed.

Lemma run_inv ctx history : forall ds r0 r,
  Inv ctx ds r0 ->
  interruptsPlayback history r0 = false ->
  run history r0 = Some r ->
  Inv ctx (ds ++ deliveries history) r.
Proof.
  induction history as [|e rest IH]; intros ds r0 r HI Hq Hrun.
  - injection Hrun as <-. unfold deliveries. cbn. rewrite app_nil_r.
    exact HI.
  - cbn [run] in Hrun. cbn [interruptsPlayback] in Hq.
    apply orb_false_elim in Hq. destruct Hq as [Hnow Hlater].
    destruct (fire e r0) as [r1|] eqn:Hfire; [|discriminate].
    unfold deliveries. cbn [List.map List.concat]. rewrite app_assoc.
    apply (IH _ r1); [|assumption|assumption].
    destruct e as [msg|i]; cbn [fire] in Hfire.
    + injection Hfire as <-. apply onmessage_inv; [assumption|].
      intros Hm. destruct (playing r0); [reflexivity|congruence].
    + cbn [delivered]. rewrite app_nil_r.
      eapply onended_inv; eassumption.
Qed.

Lemma idle_inv ctx : Inv ctx [] (idle ctx).
Proof. split; cbn; auto; discriminate. Qed.

(** C1, for histories without an interruption during playback.  Take any
    history of messages and [onended] callbacks in which no interrupted
    message arrives while a source is playing.
    Then at most one buffer source plays; the queue entries started so
    far, followed by the playable entries still waiting, are the playable
    entries delivered to [playAudioChunk], in arrival order; while a
    source plays a further chunk only joins the queue, so the next one is
    started by the [onended] of the previous one (or right after an entry
    that fails to decode); and [isPlayingRef] is false exactly when
    nothing plays, in which case the queue is empty. *)
Theorem playback_sequential ctx history r :
  run history (idle ctx) = Some r ->
  interruptsPlayback history (idle ctx) = false ->
  (length (playing r) <= 1)%nat
  /\ started r ++ List.filter (playable ctx) (audioQueueRef r)
     = List.filter (playable ctx) (deliveries history)
  /\ (isPlayingRef r = true -> playing r <> [])
  /\ (isPlayingRef r = false -> playing r = [] /\ audioQueueRef r = [])
  /\ (forall c, playing r <> [] ->
        playing (playAudioChunk c r) = playing r
        /\ started (playAudioChunk c r) = started r
        /\ audioQueueRef (playAudioChunk c r) = audioQueueRef r ++ [c])
  /\ (forall i r', onended i r = Some r' -> audioQueueRef r = [] ->
         isPlayingRef r' = false /\ playing r' = []).
Proof.
  intros Hrun Hq.
  destruct (run_inv ctx history [] (idle ctx) r (idle_inv ctx) Hq Hrun)
    as [Hctx Hone Hidle Hbusy Hfifo].
  split; [exact Hone|]. split; [exact Hfifo|]. split; [exact Hbusy|].
  split; [exact Hidle|]. split.
  - intros c Hne.
    assert (Hp : isPlayingRef r = true).
    { destruct (isPlayingRef r); [reflexivity|].
      destruct Hne. apply Hidle. reflexivity. }
    unfold playAudioChunk. cbn [isPlayingRef set_audioQueueRef].
    rewrite Hp. repeat split; reflexivity.
  - intros i r' Hend Hempty. unfold onended in Hend.
    destruct (playing r !! i) as [src|] eqn:Hi; [|discriminate].
    injection Hend as <-. unfold processAudioQueue.
    cbn [audioQueueRef set_playing]. rewrite Hempty.
    split; [reflexivity|]. cbn.
    destruct (playing r) as [|s0 [|s1 l]]; [discriminate| |cbn in Hone; lia].
    destruct i; [reflexivity|discriminate].
Qed.

Lemma playback_sequential_witness :
  exists r,
    run [OnMessage (audioMessage chunkA); OnMessage (audioMessage chunkB);
         OnEnded 0; OnEnded 0; OnMessage (interruption None);
         OnMessage (audioMessage chunkB)] (idle (Some 0%nat)) = Some r
    /\ interruptsPlayback
         [OnMessage (audioMessage chunkA); OnMessage (audioMessage chunkB);
          OnEnded 0; OnEnded 0; OnMessage (interruption None);
          OnMessage (audioMessage chunkB)] (idle (Some 0%nat)) = false
    /\ (length (playing r) <= 1)%nat.
Proof.
  set (history := [OnMessage (audioMessage chunkA);
                   OnMessage (audioMessage chunkB);
                   OnEnded 0; OnEnded 0; OnMessage (interruption None);
                   OnMessage (audioMessage chunkB)]).
  assert (Hquiet : interruptsPlayback history (idle (Some 0%nat)) = false)
    by (vm_compute; reflexivity).
  destruct (run history (idle (Some 0%nat))) as [r|] eqn:Hrun.
  - exists r. split; [reflexivity|]. split; [exact Hquiet|].
    exact (proj1 (playback_sequential (Some 0%nat) history r Hrun Hquiet)).
  - vm_compute in Hrun. discriminate Hrun.
Defined.

(** C1 does not hold across an interruption: it resets [isPlayingRef]
    although the source keeps playing, and the next chunk is then started
    on top of it. *)
Lemma overlap_after_interruption :
  exists r,
    run [OnMessage (audioMessage chunkA);
         OnMessage (interruption None);
         OnMessage (audioMessage chunkB)] (idle (Some 0%nat)) = Some r
    /\ List.map chunk (playing r) = [chunkA; chunkB]
    /\ length (playing r) = 2%nat.
Proof. eexists. repeat split; vm_compute; reflexivity. Qed.

(** C8.  A server message with [serverContent.interrupted] set empties
    the playback queue and sets [isPlayingRef] to false; the handler
    returns without handing the audio of that message to
    [playAudioChunk], so no source is started for it. *)
Theorem interrupted_message msg r :
  isInterrupted msg = true ->
  audioQueueRef (onmessage msg r) = []
  /\ isPlayingRef (onmessage msg r) = false
  /\ playing (onmessage msg r) = playing r
  /\ started (onmessage msg r) = started r
  /\ delivered (OnMessage msg) = [].
Proof.
  intros H. unfold onmessage, delivered. rewrite H. repeat split.
Qed.

Lemma interrupted_message_witness :
  isInterrupted (interruption (Some chunkA)) = true
  /\ audioDataOf (interruption (Some chunkA)) = Some chunkA
  /\ audioQueueRef busy = [chunkB]
  /\ audioQueueRef (onmessage (interruption (Some chunkA)) busy) = []
  /\ isPlayingRef (onmessage (interruption (Some chunkA)) busy) = false
  /\ started (onmessage (interruption (Some chunkA)) busy) = started busy.
Proof.
  split; [reflexivity|]. split; [reflexivity|].
  split; [vm_compute; reflexivity|].
  destruct (interrupted_message (interruption (Some chunkA)) busy eq_refl)
    as (H1 & H2 & _ & H4 & _).
  exact (conj H1 (conj H2 H4)).
Defined.

(** C5.  After [stopLiveSession], whatever the state before:
    [isLiveActive] is false; the four refs are null; the script processor
    the ref pointed to, if any, is disconnected; every track of the
    stream the ref pointed to is ended; the audio context the ref pointed
    to is closed.  Without a ref the objects of that kind are as they
    were. *)
Theorem stopLiveSession_post w :
  let r := rt w in
  let r' := rt (stopLiveSession w) in
  Ui.isLiveActive (ui (stopLiveSession w)) = false
  /\ processorRef r' = None
  /\ mediaStreamRef r' = None
  /\ audioContextRef r' = None
  /\ liveSessionRef r' = None
  /\ match processorRef r with
     | Some p => processors r' !! p = (fun _ => false) <$> processors r !! p
     | None => processors r' = processors r
     end
  /\ match mediaStreamRef r with
     | Some m =>
         streams r' !! m = List.map (fun _ => ended) <$> streams r !! m
     | None => streams r' = streams r
     end
  /\ match audioContextRef r with
     | Some c => contexts r' !! c = (fun _ => closed) <$> contexts r !! c
     | None => contexts r' = contexts r
     end.
Proof.
  destruct w as [s r]. unfold stopLiveSession. cbn [rt ui].
  destruct (processorRef r) as [p|] eqn:Hp;
    destruct (mediaStreamRef r) as [m|] eqn:Hm;
    destruct (audioContextRef r) as [c|] eqn:Hc;
    repeat (cbn; rewrite ?Hp, ?Hm, ?Hc);
    repeat split; try reflexivity; apply lookup_alter_eq.
Qed.

Lemma stopLiveSession_post_witness :
  streams (rt (stopLiveSession openSession)) !! 2%nat = Some [ended; ended]
  /\ contexts (rt (stopLiveSession openSession)) !! 3%nat = Some closed
  /\ processors (rt (stopLiveSession openSession)) !! 1%nat = Some false.
Proof.
  destruct (stopLiveSession_post openSession)
    as (_ & _ & _ & _ & _ & Hp & Hm & Hc).
  split; [exact Hm|]. split; [exact Hc | exact Hp].
Defined.

End LiveFacts.

(** ** More on the capture and playback conversions *)

Module CaptureFacts.
Import JS Base64 Pcm JSFacts Base64Facts PcmFacts.

Lemma truncate_mono p q : (p <= q)%Q -> (truncate p <= truncate q)%Z.
Proof.
  intros Hpq. destruct (Qlt_le_dec p 0) as [Hp|Hp].
  - destruct (Qlt_le_dec q 0) as [Hq|Hq].
    + rewrite !truncate_ceiling by lra. apply Qceiling_resp_le, Hpq.
    + rewrite truncate_ceiling, truncate_floor by lra.
      assert (Qceiling p <= 0)%Z.
      { change 0%Z with (Qceiling 0). apply Qceiling_resp_le. lra. }
      assert (0 <= Qfloor q)%Z.
      { change 0%Z with (Qfloor 0). apply Qfloor_resp_le. lra. }
      lia.
  - rewrite !truncate_floor by lra. apply Qfloor_resp_le, Hpq.
Qed.

Lemma gain_mono p q :
  (p <= q)%Q ->
  (p * (if Qltb p 0 then 32768 else 32767)
   <= q * (if Qltb q 0 then 32768 else 32767))%Q.
Proof.
  intros Hpq.
  destruct (Qltb p 0) eqn:Hp; destruct (Qltb q 0) eqn:Hq;
    rewrite ?Qltb_true, ?Qltb_false in *; lra.
Qed.

(** X1.  The conversion of [onaudioprocess] clips: a finite sample of 1
    or more, and positive infinity, become 32767; a finite sample of -1
    or less, and negative infinity, become -32768. *)
Theorem convertSample_saturates (q : Q) :
  ((1 <= q)%Q -> convertSample (Fin q) = 32767%Z)
  /\ ((q <= -1)%Q -> convertSample (Fin q) = (-32768)%Z)
  /\ convertSample (Inf false) = 32767%Z
  /\ convertSample (Inf true) = (-32768)%Z.
Proof.
  split; [apply convertSample_high|]. split; [apply convertSample_low|].
  split; reflexivity.
Qed.

Lemma convertSample_saturates_witness :
  (1 <= 2)%Q /\ convertSample (Fin 2) = 32767%Z.
Proof.
  assert (H : (1 <= 2)%Q) by (unfold Qle; cbn; lia).
  exact (conj H (proj1 (convertSample_saturates 2) H)).
Defined.

(** X2.  The conversion of [onaudioprocess] preserves the order of
    finite samples: a larger input never gives a smaller 16-bit value. *)
Theorem convertSample_monotone (p q : Q) :
  (p <= q)%Q -> (convertSample (Fin p) <= convertSample (Fin q))%Z.
Proof.
  intros Hpq.
  pose proof (convertSample_int16 (Fin p)) as Bp.
  pose proof (convertSample_int16 (Fin q)) as Bq. unfold int16 in *.
  destruct (Qlt_le_dec (-1) p) as [Hp|Hp];
    [|rewrite (convertSample_low p Hp); lia].
  destruct (Qlt_le_dec q 1) as [Hq|Hq];
    [|rewrite (convertSample_high q Hq); lia].
  rewrite !convertSample_inner by lra.
  apply truncate_mono, gain_mono, Hpq.
Qed.

Lemma convertSample_monotone_witness :
  (-1 # 2 <= 1 # 3)%Q
  /\ (convertSample (Fin (-1 # 2)) <= convertSample (Fin (1 # 3)))%Z.
Proof.
  assert (H : (-1 # 2 <= 1 # 3)%Q) by (unfold Qle; cbn; lia).
  exact (conj H (convertSample_monotone (-1 # 2) (1 # 3) H)).
Defined.

(** X3.  [onaudioprocess] never fails, and what it sends is the base64
    text of two bytes per input sample: reading a little-endian signed
    16-bit integer at byte offset [2 * i] of the decoded text gives the
    converted sample [i]. *)
Theorem capture_wire_format (inputData : list number) :
  exists msg bytes,
    onaudioprocess inputData = Some msg
    /\ decodeBytes (data msg) = Some bytes
    /\ length bytes = (2 * length inputData)%nat
    /\ forall i x, inputData !! i = Some x ->
         getInt16 bytes (2 * i) = Some (convertSample x).
Proof.
  unfold onaudioprocess.
  set (pcm := List.map convertSample inputData).
  pose proof (decodeBytes_encodeBytes
                (List.concat (List.map int16Bytes pcm))) as H.
  destruct (encodeBytes _) as [e|]; [|discriminate].
  cbn [mbind option_bind] in H.
  eexists. exists (List.concat (List.map int16Bytes pcm)).
  split; [reflexivity|]. split; [exact H|]. split.
  - rewrite pcmBytes_length. unfold pcm. rewrite length_map. reflexivity.
  - intros i x Hi. apply pcmBytes_read.
    + apply convertSample_all.
    + apply pcm_lookup, Hi.
Qed.

Lemma capture_wire_format_witness :
  exists msg bytes,
    onaudioprocess [Fin (1 # 2); Fin (-3)] = Some msg
    /\ decodeBytes (data msg) = Some bytes
    /\ getInt16 bytes 2 = Some (-32768)%Z.
Proof.
  destruct (capture_wire_format [Fin (1 # 2); Fin (-3)])
    as (msg & bytes & H1 & H2 & _ & H4).
  exists msg, bytes. split; [exact H1|]. split; [exact H2|].
  exact (H4 1%nat (Fin (-3)) eq_refl).
Defined.

(** X4.  What the capture path sends is a chunk the playback path
    accepts: for a non-empty input buffer, [decodeChunk] of the text sent
    by [onaudioprocess] is a one-channel buffer whose sample [i] is the
    converted input sample [i] divided by 32768. *)
Theorem capture_loopback (inputData : list number) :
  inputData <> [] ->
  exists msg,
    onaudioprocess inputData = Some msg
    /\ decodeChunk (data msg)
       = Some {| sampleRate := 24000;
                 channels := [List.map (fun x => sampleOf (convertSample x))
                                inputData] |}.
Proof.
  intros Hne.
  unfold onaudioprocess.
  set (pcm := List.map convertSample inputData).
  pose proof (decodeBytes_encodeBytes
                (List.concat (List.map int16Bytes pcm))) as H.
  destruct (encodeBytes _) as [e|]; [|discriminate].
  cbn [mbind option_bind] in H.
  eexists. split; [reflexivity|]. cbn [data].
  assert (Hlen : length (List.concat (List.map int16Bytes pcm))
                 = (2 * length inputData)%nat).
  { rewrite pcmBytes_length. unfold pcm. rewrite length_map. reflexivity. }
  destruct (decodeChunk_total e _ H) as [buf Hbuf].
  { rewrite Hlen. destruct inputData; [congruence|cbn; lia]. }
  { exists (length inputData). exact Hlen. }
  rewrite Hbuf. f_equal.
  destruct (decodeChunk_Some _ _ Hbuf) as (bytes & f & Hb & -> & _ & Hl & Hs).
  rewrite H in Hb. injection Hb as <-. f_equal. f_equal.
  apply list_eq. intros i.
  destruct (decide (i < length f)%nat) as [Hi|Hi].
  - destruct (Hs i Hi) as (v & Hv & ->).
    assert (Hx : is_Some (inputData !! i)) by (apply lookup_lt_is_Some; lia).
    destruct Hx as [x Hx].
    change (List.map ?g inputData) with (g <$> inputData).
    rewrite list_lookup_fmap, Hx. cbn.
    rewrite (pcmBytes_read pcm i (convertSample x)
               (convertSample_all inputData) (pcm_lookup _ _ _ Hx)) in Hv.
    injection Hv as <-. reflexivity.
  - rewrite !lookup_ge_None_2; [reflexivity| |lia].
    rewrite length_map. lia.
Qed.

Lemma capture_loopback_witness :
  [Fin (1 # 2)] <> []
  /\ exists msg,
       onaudioprocess [Fin (1 # 2)] = Some msg
       /\ decodeChunk (data msg)
          = Some {| sampleRate := 24000; channels := [[16383 # 32768]] |}.
Proof.
  assert (H : [Fin (1 # 2)] <> []) by discriminate.
  exact (conj H (capture_loopback [Fin (1 # 2)] H)).
Defined.

(** X5.  The [try] block of [processAudioQueue] builds a buffer exactly
    for the chunks that decode to a positive, even number of bytes; text
    that is not base64, an empty payload and an odd number of bytes all
    end in [catch]. *)
Theorem decodeChunk_iff chunk :
  is_Some (decodeChunk chunk)
  <-> exists bytes, decodeBytes chunk = Some bytes
                    /\ (0 < length bytes)%nat /\ Nat.Even (length bytes).
Proof.
  split.
  - intros [buf H].
    destruct (decodeChunk_Some _ _ H)
      as (bytes & f & Hb & _ & Hpos & Hlen & _).
    exists bytes. split; [assumption|]. split; [lia|].
    exists (length f). exact Hlen.
  - intros (bytes & Hb & Hpos & Heven).
    exact (decodeChunk_total chunk bytes Hb Hpos Heven).
Qed.

Lemma decodeChunk_iff_witness :
  is_Some (decodeChunk (lit "AAA="))
  /\ decodeChunk (lit "AAAA") = None.
Proof.
  split.
  - apply (proj2 (decodeChunk_iff (lit "AAA="))).
    exists [x00; x00]. split; [vm_compute; reflexivity|].
    split; [cbn; lia | exists 1%nat; reflexivity].
  - vm_compute. reflexivity.
Defined.

Lemma btoa_octets l :
  Forall octet l ->
  btoa l = Some (List.map char_of (sextets l) ++ padding (length l)).
Proof.
  intros Hl. unfold btoa.
  assert (Hall : forallb (fun c => (0 <=? c)%Z && (c <=? 255)%Z) l = true).
  { apply forallb_forall. rewrite List.Forall_forall in Hl.
    intros c Hc. specialize (Hl c Hc). unfold octet in Hl. lia. }
  rewrite Hall. reflexivity.
Qed.

Lemma encoded_length l :
  (length (sextets l) + length (padding (length l))
   = 4 * ((length l + 2) / 3))%nat.
Proof.
  induction l as [|a|a b|a b c l IH] using list_ind3; try reflexivity.
  cbn [sextets length]. rewrite padding_step.
  replace (S (S (S (length l))) + 2)%nat with (length l + 2 + 1 * 3)%nat
    by lia.
  rewrite Nat.div_add by lia. lia.
Qed.

(** X6.  For [n] input samples the text [onaudioprocess] sends has
    [4 * ceil(2 * n / 3)] characters: four per three bytes of PCM,
    padding included. *)
Theorem capture_payload_length (inputData : list number) :
  exists msg,
    onaudioprocess inputData = Some msg
    /\ length (data msg) = (4 * ((2 * length inputData + 2) / 3))%nat.
Proof.
  unfold onaudioprocess, encodeBytes.
  rewrite (btoa_octets _ (fromCharCode_octets _)).
  eexists. split; [reflexivity|]. cbn [data].
  rewrite length_app, length_map, encoded_length.
  unfold fromCharCode. rewrite length_map, pcmBytes_length, length_map.
  reflexivity.
Qed.

End CaptureFacts.

(** ** More on the live session *)

Module SessionFacts.
Import JS Pcm Live LiveFacts.

(** [processAudioQueue] in any state: what is started and what stays
    queued are, in order, the playable entries of the queue *)
Lemma processQueue_order q : forall r,
  audioQueueRef r = q ->
  let r' := processQueue q r in
  audioContextRef r' = audioContextRef r
  /\ (isPlayingRef r' = false -> audioQueueRef r' = [])
  /\ started r'
       ++ List.filter (playable (audioContextRef r)) (audioQueueRef r')
     = started r ++ List.filter (playable (audioContextRef r)) q.
Proof.
  induction q as [|c rest IH]; intros r Hq; cbn [processQueue].
  - cbn. rewrite Hq. auto.
  - cbn zeta.
    set (r1 := set_audioQueueRef rest (set_isPlayingRef true r)).
    assert (Hctx1 : audioContextRef r1 = audioContextRef r) by reflexivity.
    specialize (IH r1 eq_refl). cbn zeta in IH. rewrite Hctx1 in IH.
    unfold playable at 2. cbn [List.filter].
    destruct (truthy c) eqn:Ht.
    + rewrite Hctx1. destruct (audioContextRef r) as [ctx|] eqn:Hctx.
      * destruct (decodeChunk c) as [buf|] eqn:Hd.
        -- cbn. rewrite Hctx. cbn. rewrite <- app_assoc.
           repeat split; auto; discriminate.
        -- fold (playable (Some ctx)). exact IH.
      * exact IH.
    + destruct (audioContextRef r), (decodeChunk c); exact IH.
Qed.

Lemma fire_order ctx ds e r r' :
  audioContextRef r = ctx ->
  (isPlayingRef r = false -> audioQueueRef r = []) ->
  (started r ++ List.filter (playable ctx) (audioQueueRef r))
    `sublist_of` List.filter (playable ctx) ds ->
  Forall decoded (playing r) ->
  fire e r = Some r' ->
  audioContextRef r' = ctx
  /\ (isPlayingRef r' = false -> audioQueueRef r' = [])
  /\ (started r' ++ List.filter (playable ctx) (audioQueueRef r'))
       `sublist_of` List.filter (playable ctx) (ds ++ delivered e)
  /\ Forall decoded (playing r').
Proof.
  intros Hctx Hidle Hsub Hdec. destruct e as [msg|i]; cbn [fire delivered].
  - intros [= <-]. unfold onmessage.
    destruct (isInterrupted msg).
    + rewrite app_nil_r. cbn. repeat split; auto.
      rewrite app_nil_r. etrans; [|exact Hsub]. apply sublist_inserts_r.
      reflexivity.
    + destruct (audioDataOf msg) as [d|]; [|rewrite app_nil_r; auto].
      destruct (truthy d); [|rewrite app_nil_r; auto].
      unfold playAudioChunk.
      set (r1 := set_audioQueueRef (audioQueueRef r ++ [d]) r).
      change (isPlayingRef r1) with (isPlayingRef r).
      rewrite List.filter_app.
      assert (Hsub1 : (started r1
                       ++ List.filter (playable ctx) (audioQueueRef r1))
                      `sublist_of` (List.filter (playable ctx) ds
                                    ++ List.filter (playable ctx) [d])).
      { change (audioQueueRef r1) with (audioQueueRef r ++ [d]).
        change (started r1) with (started r).
        rewrite List.filter_app, app_assoc.
        apply sublist_app; [exact Hsub|reflexivity]. }
      destruct (isPlayingRef r) eqn:Hp; cbn [negb].
      * repeat split; auto. cbn. congruence.
      * pose proof (processQueue_order (audioQueueRef r1) r1 eq_refl) as H.
        cbn zeta in H. destruct H as (H1 & H2 & H3).
        change (audioContextRef r1) with (audioContextRef r) in *.
        rewrite Hctx in *. unfold processAudioQueue.
        split; [assumption|]. split; [assumption|]. split.
        -- rewrite H3. exact Hsub1.
        -- apply processQueue_decoded. exact Hdec.
  - unfold onended.
    destruct (playing r !! i) as [src|] eqn:Hi; [|discriminate].
    intros [= <-]. rewrite app_nil_r.
    set (r1 := set_playing (delete i (playing r)) r).
    pose proof (processQueue_order (audioQueueRef r1) r1 eq_refl) as H.
    cbn zeta in H. destruct H as (H1 & H2 & H3).
    change (audioContextRef r1) with (audioContextRef r) in *.
    rewrite Hctx in *. unfold processAudioQueue.
    split; [assumption|]. split; [assumption|]. split.
    + rewrite H3. exact Hsub.
    + apply processQueue_decoded. cbn. apply Forall_delete. exact Hdec.
Qed.

Lemma run_order ctx history : forall ds r r',
  audioContextRef r = ctx ->
  (isPlayingRef r = false -> audioQueueRef r = []) ->
  (started r ++ List.filter (playable ctx) (audioQueueRef r))
    `sublist_of` List.filter (playable ctx) ds ->
  Forall decoded (playing r) ->
  run history r = Some r' ->
  (started r' ++ List.filter (playable ctx) (audioQueueRef r'))
    `sublist_of` List.filter (playable ctx) (ds ++ deliveries history)
  /\ Forall decoded (playing r').
Proof.
  induction history as [|e rest IH];
    intros ds r r' Hctx Hidle Hsub Hdec Hrun; cbn [run] in Hrun.
  - injection Hrun as <-. unfold deliveries. cbn. rewrite app_nil_r. auto.
  - destruct (fire e r) as [r1|] eqn:Hfire; [|discriminate].
    destruct (fire_order ctx ds e r r1 Hctx Hidle Hsub Hdec Hfire)
      as (H1 & H2 & H3 & H4).
    unfold deliveries. cbn [List.map List.concat]. rewrite app_assoc.
    exact (IH _ r1 r' H1 H2 H3 H4 Hrun).
Qed.

(** X7.  Whatever the history of messages and [onended] callbacks,
    interruptions included, the queue entries a source was started for
    are delivered, decodable entries, each started at most once and in
    arrival order; and every source that plays carries the buffer
    decoded from its queue entry. *)
Theorem started_only_delivered ctx history r :
  run history (idle ctx) = Some r ->
  started r `sublist_of` List.filter (playable ctx) (deliveries history)
  /\ Forall decoded (playing r).
Proof.
  intros Hrun.
  destruct (run_order ctx history [] (idle ctx) r eq_refl
              (fun _ => eq_refl) (sublist_nil_l _) (Forall_nil_2 _) Hrun)
    as [Hsub Hdec].
  split; [|exact Hdec].
  etrans; [|exact Hsub]. apply sublist_inserts_r. reflexivity.
Qed.

Lemma started_only_delivered_witness :
  exists r,
    run [OnMessage (audioMessage chunkA); OnMessage (audioMessage chunkB);
         OnMessage (interruption None); OnMessage (audioMessage chunkA)]
      (idle (Some 0%nat)) = Some r
    /\ Forall decoded (playing r).
Proof.
  set (history := [OnMessage (audioMessage chunkA);
                   OnMessage (audioMessage chunkB);
                   OnMessage (interruption None);
                   OnMessage (audioMessage chunkA)]).
  destruct (run history (idle (Some 0%nat))) as [r|] eqn:Hrun.
  - exists r. split; [reflexivity|].
    exact (proj2 (started_only_delivered (Some 0%nat) history r Hrun)).
  - vm_compute in Hrun. discriminate Hrun.
Defined.

(** [processAudioQueue] without an audio context: every entry is
    dropped, nothing is started *)
Lemma processQueue_no_context q : forall r,
  audioContextRef r = None -> audioQueueRef r = q ->
  let r' := processQueue q r in
  audioContextRef r' = None /\ audioQueueRef r' = []
  /\ isPlayingRef r' = false
  /\ playing r' = playing r /\ started r' = started r.
Proof.
  induction q as [|c rest IH]; intros r Hctx Hq; cbn [processQueue].
  - cbn. auto.
  - cbn zeta.
    set (r1 := set_audioQueueRef rest (set_isPlayingRef true r)).
    change (audioContextRef r1) with (audioContextRef r). rewrite Hctx.
    destruct (truthy c); exact (IH r1 Hctx eq_refl).
Qed.

Lemma fire_no_context e r r' :
  audioContextRef r = None -> fire e r = Some r' ->
  audioContextRef r' = None /\ started r' = started r
  /\ (length (playing r') <= length (playing r))%nat.
Proof.
  intros Hctx. destruct e as [msg|i]; cbn [fire].
  - intros [= <-]. unfold onmessage.
    destruct (isInterrupted msg); [cbn; auto|].
    destruct (audioDataOf msg) as [d|]; [|auto].
    destruct (truthy d); [|auto]. unfold playAudioChunk.
    set (r1 := set_audioQueueRef (audioQueueRef r ++ [d]) r).
    change (isPlayingRef r1) with (isPlayingRef r).
    destruct (isPlayingRef r); cbn [negb]; [cbn; auto|].
    destruct (processQueue_no_context (audioQueueRef r1) r1 Hctx eq_refl)
      as (H1 & _ & _ & H4 & H5).
    unfold processAudioQueue. rewrite H1, H4, H5. cbn. auto.
  - unfold onended.
    destruct (playing r !! i) as [src|] eqn:Hi; [|discriminate].
    intros [= <-].
    set (r1 := set_playing (delete i (playing r)) r).
    destruct (processQueue_no_context (audioQueueRef r1) r1 Hctx eq_refl)
      as (H1 & _ & _ & H4 & H5).
    unfold processAudioQueue. rewrite H1, H4, H5.
    split; [reflexivity|]. split; [reflexivity|].
    cbn [playing set_playing r1].
    rewrite length_delete by eauto. lia.
Qed.

Lemma run_no_context history : forall r r',
  audioContextRef r = None -> run history r = Some r' ->
  audioContextRef r' = None /\ started r' = started r
  /\ (length (playing r') <= length (playing r))%nat.
Proof.
  induction history as [|e rest IH]; intros r r' Hctx Hrun;
    cbn [run] in Hrun.
  - injection Hrun as <-. auto.
  - destruct (fire e r) as [r1|] eqn:Hfire; [|discriminate].
    destruct (fire_no_context e r r1 Hctx Hfire) as (H1 & H2 & H3).
    destruct (IH r1 r' H1 Hrun) as (H4 & H5 & H6).
    split; [assumption|]. split; [congruence|lia].
Qed.

(** X8.  A chunk handed to [playAudioChunk] while [audioContextRef] is
    null never starts a source.  If [isPlayingRef] is false the chunk is
    thrown away: the queue is empty again afterwards and [isPlayingRef]
    is false.  If [isPlayingRef] is true (a source is playing, or the
    flag was left set when the session was stopped during playback) the
    chunk only joins the queue and the flag stays true. *)
Theorem no_context_drops_audio c r :
  audioContextRef r = None ->
  playing (playAudioChunk c r) = playing r
  /\ started (playAudioChunk c r) = started r
  /\ audioContextRef (playAudioChunk c r) = None
  /\ (isPlayingRef r = false ->
      audioQueueRef (playAudioChunk c r) = []
      /\ isPlayingRef (playAudioChunk c r) = false)
  /\ (isPlayingRef r = true ->
      audioQueueRef (playAudioChunk c r) = audioQueueRef r ++ [c]
      /\ isPlayingRef (playAudioChunk c r) = true).
Proof.
  intros Hctx. unfold playAudioChunk.
  set (r1 := set_audioQueueRef (audioQueueRef r ++ [c]) r).
  change (isPlayingRef r1) with (isPlayingRef r).
  destruct (processQueue_no_context (audioQueueRef r1) r1 Hctx eq_refl)
    as (H1 & H2 & H3 & H4 & H5).
  unfold processAudioQueue.
  destruct (isPlayingRef r) eqn:Hp; cbn [negb].
  - split; [reflexivity|]. split; [reflexivity|]. split; [exact Hctx|].
    split; [discriminate|]. intros _. split; [reflexivity|exact Hp].
  - split; [exact H4|]. split; [exact H5|]. split; [exact H1|].
    split; [|discriminate]. intros _. split; assumption.
Qed.

Lemma no_context_drops_audio_witness :
  audioContextRef (idle None) = None
  /\ audioQueueRef (playAudioChunk chunkA (idle None)) = []
  /\ audioContextRef (rt (stopLiveSession openSession)) = None
  /\ isPlayingRef (rt (stopLiveSession openSession)) = true
  /\ audioQueueRef (playAudioChunk chunkA (rt (stopLiveSession openSession)))
     = [chunkB; chunkA].
Proof.
  destruct (no_context_drops_audio chunkA (idle None) eq_refl)
    as (_ & _ & _ & Hidle & _).
  destruct (no_context_drops_audio chunkA (rt (stopLiveSession openSession))
              eq_refl) as (_ & _ & _ & _ & Hbusy).
  exact (conj eq_refl
           (conj (proj1 (Hidle eq_refl))
              (conj eq_refl (conj eq_refl (proj1 (Hbusy eq_refl)))))).
Defined.

Lemma stopLiveSession_frame w :
  ui (stopLiveSession w) = Ui.setIsLiveActive false (ui w)
  /\ audioContextRef (rt (stopLiveSession w)) = None
  /\ audioQueueRef (rt (stopLiveSession w)) = audioQueueRef (rt w)
  /\ isPlayingRef (rt (stopLiveSession w)) = isPlayingRef (rt w)
  /\ playing (rt (stopLiveSession w)) = playing (rt w)
  /\ started (rt (stopLiveSession w)) = started (rt w).
Proof.
  destruct w as [s r]. unfold stopLiveSession. cbn [rt ui].
  destruct (processorRef r) as [p|] eqn:Hp;
    destruct (mediaStreamRef r) as [m|] eqn:Hm;
    destruct (audioContextRef r) as [c|] eqn:Hc;
    repeat (cbn; rewrite ?Hp, ?Hm, ?Hc); repeat split.
Qed.

(** X9.  [stopLiveSession] may be called again without further effect
    (the button, [onclose] and [onerror] all call it); it changes no
    React state but [isLiveActive], and it leaves the playback queue,
    [isPlayingRef] and the sources that are playing as they are. *)
Theorem stopLiveSession_idempotent w :
  stopLiveSession (stopLiveSession w) = stopLiveSession w
  /\ ui (stopLiveSession w) = Ui.setIsLiveActive false (ui w)
  /\ audioQueueRef (rt (stopLiveSession w)) = audioQueueRef (rt w)
  /\ isPlayingRef (rt (stopLiveSession w)) = isPlayingRef (rt w)
  /\ playing (rt (stopLiveSession w)) = playing (rt w).
Proof.
  destruct (stopLiveSession_frame w) as (H1 & _ & H3 & H4 & H5 & _).
  split; [|auto].
  destruct w as [s r]. unfold stopLiveSession. cbn [rt ui].
  destruct (processorRef r) as [p|] eqn:Hp;
    destruct (mediaStreamRef r) as [m|] eqn:Hm;
    destruct (audioContextRef r) as [c|] eqn:Hc;
    repeat (cbn; rewrite ?Hp, ?Hm, ?Hc); reflexivity.
Qed.

(** X10.  After [stopLiveSession] no audio is played any more: whatever
    messages and [onended] callbacks follow, no further source is
    started. *)
Theorem stopped_session_plays_nothing w history r' :
  run history (rt (stopLiveSession w)) = Some r' ->
  started r' = started (rt w)
  /\ (length (playing r') <= length (playing (rt w)))%nat.
Proof.
  intros Hrun.
  destruct (stopLiveSession_frame w) as (_ & Hctx & _ & _ & Hpl & Hst).
  destruct (run_no_context history _ r' Hctx Hrun) as (_ & H2 & H3).
  rewrite <- Hst, <- Hpl. auto.
Qed.

Lemma stopped_session_plays_nothing_witness :
  exists r',
    run [OnMessage (audioMessage chunkA); OnMessage (audioMessage chunkB)]
      (rt (stopLiveSession openSession)) = Some r'
    /\ started r' = [].
Proof.
  set (history := [OnMessage (audioMessage chunkA);
                   OnMessage (audioMessage chunkB)]).
  destruct (run history (rt (stopLiveSession openSession)))
    as [r'|] eqn:Hrun.
  - exists r'. split; [reflexivity|].
    exact (proj1 (stopped_session_plays_nothing openSession history r' Hrun)).
  - vm_compute in Hrun. discriminate Hrun.
Defined.

(** X11.  The [catch] block of [startLiveSession] only resets
    [isLiveActive]: the audio context the failed start created stays in
    [audioContextRef], as it was created.  A second start replaces the
    ref, and [stopLiveSession] then closes the second context only. *)
Theorem failed_start_leaves_context_open w c1 st1 c2 st2 :
  c1 <> c2 ->
  let w1 := startLiveSession_catch (startLiveSession_begin c1 st1 w) in
  let w2 := stopLiveSession (startLiveSession_begin c2 st2 w1) in
  Ui.isLiveActive (ui w1) = false
  /\ audioContextRef (rt w1) = Some c1
  /\ contexts (rt w1) !! c1 = Some st1
  /\ contexts (rt w2) !! c1 = Some st1
  /\ contexts (rt w2) !! c2 = Some closed
  /\ audioContextRef (rt w2) = None.
Proof.
  intros Hne. destruct w as [s r]. cbn zeta.
  unfold stopLiveSession, startLiveSession_begin, startLiveSession_catch.
  cbn [rt ui].
  destruct (processorRef r) as [p|] eqn:Hp;
    destruct (mediaStreamRef r) as [m|] eqn:Hm;
    repeat (cbn; rewrite ?Hp, ?Hm);
    rewrite ?lookup_alter_eq, ?lookup_alter_ne, ?lookup_insert_eq
      by congruence;
    rewrite ?lookup_insert_ne, ?lookup_insert_eq by congruence;
    repeat split; reflexivity.
Qed.

Lemma failed_start_leaves_context_open_witness :
  1%nat <> 2%nat
  /\ contexts
       (rt (stopLiveSession
              (startLiveSession_begin 2 running
                 (startLiveSession_catch
                    (startLiveSession_begin 1 suspended
                       {| ui := Ui.initial; rt := idle None |})))))
     !! 1%nat = Some suspended.
Proof.
  assert (H : 1%nat <> 2%nat) by discriminate.
  destruct (failed_start_leaves_context_open
              {| ui := Ui.initial; rt := idle None |}
              1%nat suspended 2%nat running H) as (_ & _ & _ & H4 & _).
  exact (conj H H4).
Defined.

(** X12.  A session that was started completely (context created,
    microphone stream stored, session stored, processor connected in
    [onopen]) and is then stopped leaves nothing behind: all four refs
    are null, the context is closed, every track of the stream is ended
    and the processor is disconnected. *)
Theorem start_then_stop w c st m tracks session p :
  let w' := stopLiveSession
              (onopen p
                 (startLiveSession_session session
                    (startLiveSession_stream m tracks
                       (startLiveSession_begin c st w)))) in
  Ui.isLiveActive (ui w') = false
  /\ audioContextRef (rt w') = None
  /\ mediaStreamRef (rt w') = None
  /\ processorRef (rt w') = None
  /\ liveSessionRef (rt w') = None
  /\ contexts (rt w') !! c = Some closed
  /\ streams (rt w') !! m = Some (replicate tracks ended)
  /\ processors (rt w') !! p = Some false.
Proof.
  destruct w as [s r]. cbn zeta.
  unfold stopLiveSession, onopen, startLiveSession_session,
    startLiveSession_stream, startLiveSession_begin.
  cbn. rewrite !lookup_alter_eq, !lookup_insert_eq. cbn.
  repeat split; try reflexivity.
  f_equal. induction tracks as [|n IH]; [reflexivity|].
  cbn. f_equal. exact IH.
Qed.

End SessionFacts.

(** ** More on the handlers of the chat and image tools *)

Module HandlerFacts.
Import JS Ui UiFacts.
Local Open Scope Z_scope.

(** the loop of [handleGenerateImage] in one step *)
Lemma extractImages_spec prompt parts : forall found s,
  let r := extractImages prompt parts found s in
  fst r = found || negb (bool_decide (imageUrls parts = []))
  /\ messages (snd r)
     = messages s ++ List.map (ideaMessage prompt) (imageUrls parts)
  /\ generatedImage (snd r)
     = match last (imageUrls parts) with
       | Some url => Some url
       | None => generatedImage s
       end
  /\ image (snd r) = image s
  /\ chatInput (snd r) = chatInput s
  /\ generatedVideo (snd r) = generatedVideo s.
Proof.
  induction parts as [|p parts IH]; intros found s; cbn [extractImages].
  - cbn. rewrite orb_false_r, app_nil_r. repeat split.
  - unfold imageUrls. cbn [omap list_omap]. fold (imageUrls parts).
    destruct (inlineData p) as [d|]; [|exact (IH found s)].
    cbn zeta. set (url := lit "data:image/png;base64," ++ interpolate d).
    clearbody url.
    destruct (IH true (addMessage Message.model (ideaText prompt) (Some url)
                         (setGeneratedImage (Some url) s)))
      as (H1 & H2 & H3 & H4 & H5 & H6).
    cbn zeta in *. rewrite H1, H2, H3, H4, H5, H6.
    rewrite (bool_decide_eq_false_2 (url :: imageUrls parts = []))
      by discriminate.
    cbn [messages generatedImage image chatInput generatedVideo
         addMessage setMessages setGeneratedImage].
    rewrite orb_true_r, <- app_assoc, last_cons.
    repeat split. destruct (last (imageUrls parts)); reflexivity.
Qed.

Ltac image_call s :=
  let img := fresh "img" in
  unfold handleGenerateImage_call;
  destruct (image s) as [img|]; [destruct (truthy img)|].

Ltac video_call s :=
  let src := fresh "src" in
  unfold handleGenerateVideo_call;
  destruct (negb _ && negb _);
    [|destruct (sourceImage s) as [src|]; [destruct (truthy src)|]].

Ltac grows := cbn; try rewrite <- app_assoc; apply prefix_app_r; reflexivity.

Lemma step_messages e s :
  messages s `prefix_of` messages (fst (step e s)).
Proof.
  destruct e; cbn [step]; try reflexivity.
  - unfold handleImageUpload. destruct (files ≫= head); reflexivity.
  - grows.
  - unfold handleSendMessage_call.
    destruct (nothingToSend s); [reflexivity|grows].
  - destruct o as [[t|]|]; cbn; [destruct (truthy t)| |]; cbn;
      try reflexivity; grows.
  - image_call s; reflexivity.
  - image_call s; reflexivity.
  - image_call s; reflexivity.
  - destruct o as [[ps|]|]; cbn [handleGenerateImage_settle];
      [|grows|grows].
    pose proof (extractImages_spec prompt ps false s) as H. cbn zeta in H.
    destruct (extractImages prompt ps false s) as [found s'].
    cbn [fst snd] in H. destruct H as (_ & H & _).
    destruct found; cbn; rewrite H; [|rewrite <- app_assoc];
      apply prefix_app_r; reflexivity.
  - video_call s; try reflexivity. grows.
  - unfold handleGenerateVideo_done.
    destruct videoUri as [uri|]; [destruct (truthy uri)|];
      try reflexivity; grows.
  - grows.
  - grows.
Qed.

(** X13.  The chat history only grows: every handler leaves the
    messages it finds in place and at most appends to them, so after any
    history of events the earlier messages are a prefix of the later
    ones and the welcome message is still the first. *)
Theorem messages_append_only history s e :
  messages s `prefix_of` messages (fst (step e s))
  /\ messages s `prefix_of` messages (run history s)
  /\ head (messages (run history initial)) = head (messages initial).
Proof.
  assert (Hrun : forall h s0, messages s0 `prefix_of` messages (run h s0)).
  { induction h as [|e0 h IH] using rev_ind; intros s0; [reflexivity|].
    rewrite run_snoc. etrans; [apply IH|apply step_messages]. }
  split; [apply step_messages|]. split; [apply Hrun|].
  destruct (Hrun history initial) as [k ->]. reflexivity.
Qed.

Ltac effects_known :=
  split; [cbn; lia|];
  split; intros eff Hin; cbn in Hin |- *; intros;
  repeat match goal with
         | H : _ \/ _ |- _ => destruct H
         | H : False |- _ => destruct H
         end;
  subst; try discriminate; reflexivity.

(** X14.  Every callback segment issues at most one request to the
    model API (a generation request, a poll of the video operation, the
    fetch of the video, or the live connect).  A segment that issues
    [generateContent] or [generateVideos] has set [isGenerating]; the
    polls, the fetch and the live connect are issued without any change
    of React state, whatever [isGenerating] is at that moment. *)
Theorem step_calls_once e s :
  (apiCalls (snd (step e s)) <= 1)%nat
  /\ (forall eff, In eff (snd (step e s)) -> isGenerateCall eff = true ->
        isGenerating (fst (step e s)) = true)
  /\ (forall eff, In eff (snd (step e s)) -> isApiCall eff = true ->
        isGenerateCall eff = false -> fst (step e s) = s).
Proof.
  destruct e; cbn [step]; try solve [effects_known].
  - unfold handleImageUpload. destruct (files ≫= head); effects_known.
  - unfold handleSendMessage_call.
    destruct (nothingToSend s); effects_known.
  - destruct o as [[t|]|]; [destruct (truthy t)| |]; effects_known.
  - image_call s; effects_known.
  - image_call s; effects_known.
  - image_call s; effects_known.
  - destruct o as [[ps|]|]; cbn [handleGenerateImage_settle];
      [|effects_known|effects_known].
    destruct (extractImages prompt ps false s) as [found s'].
    destruct found; effects_known.
  - video_call s; effects_known.
  - unfold handleGenerateVideo_done.
    destruct videoUri as [uri|]; [destruct (truthy uri)|]; effects_known.
Qed.

Lemma step_calls_once_witness :
  In (generateContent TEXT_CHAT [textPart (lit "hello")] (Some DESIGNER))
     (snd (step Send (setChatInput (lit "hello") initial)))
  /\ isGenerating (fst (step Send (setChatInput (lit "hello") initial)))
     = true
  /\ In getVideosOperation (snd (step VideoPoll initial))
  /\ fst (step VideoPoll initial) = initial.
Proof.
  assert (H1 : In (generateContent TEXT_CHAT [textPart (lit "hello")]
                     (Some DESIGNER))
                 (snd (step Send (setChatInput (lit "hello") initial))))
    by (left; reflexivity).
  assert (H2 : In getVideosOperation (snd (step VideoPoll initial)))
    by (left; reflexivity).
  destruct (step_calls_once Send (setChatInput (lit "hello") initial))
    as (_ & Hgen & _).
  destruct (step_calls_once VideoPoll initial) as (_ & _ & Hother).
  exact (conj H1 (conj (Hgen _ H1 eq_refl)
           (conj H2 (Hother _ H2 eq_refl eq_refl)))).
Defined.

Lemma imageSettle_isGenerating prompt o s :
  isGenerating (fst (handleGenerateImage_settle prompt o s)) = false.
Proof.
  destruct o as [[ps|]|]; cbn [handleGenerateImage_settle]; try reflexivity.
  destruct (extractImages prompt ps false s) as [found s'].
  destruct found; reflexivity.
Qed.

Lemma imageSettle_generatedImage prompt parts s :
  generatedImage
    (fst (handleGenerateImage_settle prompt (imageResolved (Some parts)) s))
  = match last (imageUrls parts) with
    | Some url => Some url
    | None => generatedImage s
    end.
Proof.
  cbn [handleGenerateImage_settle].
  pose proof (extractImages_spec prompt parts false s) as H. cbn zeta in H.
  destruct (extractImages prompt parts false s) as [found s'].
  cbn [fst snd] in H. destruct H as (_ & _ & H3 & _).
  destruct found; cbn; exact H3.
Qed.

(** X15.  When the image request resolves with a list of parts, the
    continuation of [handleGenerateImage] appends one message per part
    that has inline data, in order, or the single "couldn't generate"
    message if there is none; [generatedImage] ends up as the data URL of
    the last such part (it is kept if there is none); and [isGenerating]
    is false. *)
Theorem handleGenerateImage_settle_spec prompt parts s :
  let s' := fst (handleGenerateImage_settle prompt
                   (imageResolved (Some parts)) s) in
  isGenerating s' = false
  /\ messages s'
     = messages s
       ++ match imageUrls parts with
          | [] => [modelMessage noImageText]
          | urls => List.map (ideaMessage prompt) urls
          end
  /\ generatedImage s'
     = match last (imageUrls parts) with
       | Some url => Some url
       | None => generatedImage s
       end.
Proof.
  cbn zeta. split; [apply imageSettle_isGenerating|].
  split; [|apply imageSettle_generatedImage].
  cbn [handleGenerateImage_settle].
  pose proof (extractImages_spec prompt parts false s) as H. cbn zeta in H.
  destruct (extractImages prompt parts false s) as [found s'].
  cbn [fst snd] in H. destruct H as (H1 & H2 & _).
  cbn [orb] in H1. subst found.
  destruct (imageUrls parts) as [|u us] eqn:E.
  - cbn. rewrite H2, app_nil_r. reflexivity.
  - rewrite (bool_decide_eq_false_2 (u :: us = [])) by discriminate.
    cbn [negb fst]. cbn [messages setIsGenerating].
    rewrite H2. reflexivity.
Qed.

(** X16.  Without an uploaded image [handleGenerateImage] returns at
    once, and so does [handleGenerateVideo] when there is neither an
    uploaded nor a generated image: no state changes and no request is
    issued. *)
Theorem generate_guards prompt s :
  (truthy_opt (image s) = false ->
   handleGenerateImage_call prompt s = (s, []))
  /\ (truthy_opt (image s) = false ->
      truthy_opt (generatedImage s) = false ->
      handleGenerateVideo_call s = (s, [])).
Proof.
  split.
  - intros H. unfold handleGenerateImage_call.
    destruct (image s) as [img|]; [|reflexivity].
    cbn in H. rewrite H. reflexivity.
  - intros H1 H2. unfold handleGenerateVideo_call. rewrite H1, H2.
    reflexivity.
Qed.

Lemma generate_guards_witness :
  truthy_opt (image initial) = false
  /\ truthy_opt (generatedImage initial) = false
  /\ handleGenerateImage_call (lit "Zen") initial = (initial, [])
  /\ handleGenerateVideo_call initial = (initial, []).
Proof.
  destruct (generate_guards (lit "Zen") initial) as [H1 H2].
  exact (conj eq_refl (conj eq_refl
           (conj (H1 eq_refl) (H2 eq_refl eq_refl)))).
Defined.

Lemma split_on_commaFree d : commaFree d -> split_on comma d = [d].
Proof.
  induction 1 as [|c d Hc _ IH]; [reflexivity|].
  cbn [split_on]. rewrite (proj2 (Z.eqb_neq c comma) Hc), IH. reflexivity.
Qed.

Lemma split_on_app p rest :
  commaFree p ->
  split_on comma (p ++ comma :: rest) = p :: split_on comma rest.
Proof.
  induction 1 as [|c p Hc _ IH]; cbn [app split_on].
  - rewrite Z.eqb_refl. reflexivity.
  - rewrite (proj2 (Z.eqb_neq c comma) Hc), IH. reflexivity.
Qed.

Lemma base64Of_payload p d :
  commaFree p -> commaFree d -> base64Of (p ++ comma :: d) = Some d.
Proof.
  intros Hp Hd. unfold base64Of. change 44 with comma.
  rewrite (split_on_app p _ Hp), (split_on_commaFree d Hd). reflexivity.
Qed.

Lemma dataUrl_base64Of d :
  commaFree d -> base64Of (lit "data:image/png;base64," ++ d) = Some d.
Proof.
  intros Hd.
  change (lit "data:image/png;base64," ++ d)
    with (lit "data:image/png;base64" ++ comma :: d).
  apply base64Of_payload; [|exact Hd].
  unfold commaFree. vm_compute. repeat constructor; discriminate.
Qed.

(** X17.  [dataUrl.split(',')[1]], the image data the handlers put into
    their requests: it is undefined for a string without a comma, and
    otherwise the text between the first comma and the next one (or the
    end of the string). *)
Theorem base64Of_spec (p d rest : jsstring) :
  commaFree p -> commaFree d ->
  base64Of p = None
  /\ base64Of (p ++ comma :: d) = Some d
  /\ base64Of (p ++ comma :: d ++ comma :: rest) = Some d.
Proof.
  intros Hp Hd. split; [|split; [apply base64Of_payload; assumption|]].
  - unfold base64Of. change 44 with comma.
    rewrite (split_on_commaFree p Hp). reflexivity.
  - unfold base64Of. change 44 with comma.
    rewrite (split_on_app p _ Hp), (split_on_app d rest Hd). reflexivity.
Qed.

Lemma base64Of_spec_witness :
  commaFree (lit "data:image/jpeg;base64") /\ commaFree (lit "AAAA")
  /\ base64Of (lit "data:image/jpeg;base64,AAAA") = Some (lit "AAAA").
Proof.
  assert (Hp : commaFree (lit "data:image/jpeg;base64"))
    by (unfold commaFree; vm_compute; repeat constructor; discriminate).
  assert (Hd : commaFree (lit "AAAA"))
    by (unfold commaFree; vm_compute; repeat constructor; discriminate).
  destruct (base64Of_spec (lit "data:image/jpeg;base64") (lit "AAAA") []
              Hp Hd) as (_ & H & _).
  exact (conj Hp (conj Hd H)).
Defined.

(** X18.  The walkthrough is made from the latest generated image: if
    the last inline part of an image response carried the data [d], the
    next [handleGenerateVideo] sends exactly [d] as the image bytes of its
    request. *)
Theorem generated_image_feeds_video prompt parts d s :
  last (imageUrls parts) = Some (lit "data:image/png;base64," ++ d) ->
  commaFree d ->
  snd (step WalkthroughClick
         (fst (step (ImageSettled prompt (imageResolved (Some parts))) s)))
  = [generateVideos VIDEO_GEN videoPrompt (Some d) (lit "image/png")].
Proof.
  intros Hlast Hd. cbn [step].
  pose proof (imageSettle_generatedImage prompt parts s) as Hg.
  rewrite Hlast in Hg.
  set (s1 := fst (handleGenerateImage_settle prompt _ s)) in *.
  unfold handleGenerateVideo_call, sourceImage. rewrite Hg.
  assert (Ht : truthy (lit "data:image/png;base64," ++ d) = true)
    by reflexivity.
  cbn [truthy_opt]. rewrite Ht, andb_false_r. cbn [negb snd].
  rewrite (dataUrl_base64Of d Hd). reflexivity.
Qed.

Lemma generated_image_feeds_video_witness :
  commaFree (lit "AAAA")
  /\ snd (step WalkthroughClick
            (fst (step (ImageSettled (lit "Zen")
                          (imageResolved
                             (Some [ {| inlineData :=
                                          Some (Some (lit "AAAA")) |} ])))
                    initial)))
     = [generateVideos VIDEO_GEN videoPrompt (Some (lit "AAAA"))
          (lit "image/png")].
Proof.
  assert (Hd : commaFree (lit "AAAA"))
    by (unfold commaFree; vm_compute; repeat constructor; discriminate).
  exact (conj Hd
           (generated_image_feeds_video (lit "Zen")
              [ {| inlineData := Some (Some (lit "AAAA")) |} ]
              (lit "AAAA") initial eq_refl Hd)).
Defined.

Lemma trimStart_nil s : trimStart s = [] <-> forallb isTrimSpace s = true.
Proof.
  induction s as [|c s IH]; cbn [trimStart forallb]; [tauto|].
  destruct (isTrimSpace c); cbn [andb]; [exact IH|].
  split; discriminate.
Qed.

Lemma trimStart_not_space s c s' :
  trimStart s = c :: s' -> isTrimSpace c = false.
Proof.
  induction s as [|x s IH]; cbn [trimStart]; [discriminate|].
  destruct (isTrimSpace x) eqn:E; [exact IH|].
  intros [= -> _]. exact E.
Qed.

(** [trim] leaves nothing exactly of the strings made of white space *)
Lemma trim_nil s : trim s = [] <-> forallb isTrimSpace s = true.
Proof.
  unfold trim. split.
  - intros H. apply (f_equal (@rev Z)) in H. rewrite rev_involutive in H.
    cbn [rev] in H. apply trimStart_nil in H.
    destruct (trimStart s) as [|c s'] eqn:E; [apply trimStart_nil, E|].
    apply trimStart_not_space in E.
    rewrite forallb_forall in H. specialize (H c).
    rewrite <- in_rev in H. rewrite H in E; [discriminate|left; reflexivity].
  - intros H. apply trimStart_nil in H. rewrite H. reflexivity.
Qed.

Lemma truthy_false s : truthy s = false <-> s = [].
Proof. destruct s; cbn; split; congruence. Qed.

(** X19.  The send button is disabled in exactly the states in which
    [handleSendMessage] would return without doing anything. *)
Theorem sendDisabled_iff s :
  sendDisabled s = true <-> handleSendMessage_call s = (s, []).
Proof.
  unfold handleSendMessage_call.
  change (sendDisabled s) with (nothingToSend s).
  destruct (nothingToSend s); split; try reflexivity; discriminate.
Qed.

Lemma sendDisabled_iff_witness :
  sendDisabled initial = true /\ handleSendMessage_call initial = (initial, []).
Proof.
  exact (conj eq_refl (proj1 (sendDisabled_iff initial) eq_refl)).
Defined.

(** X20.  When the Generate button is enabled there is an image and the
    input is not blank; the click sends exactly one request, to the
    image model, with the image data first and the typed text as the
    prompt, then clears the input, drops the previous generated image and
    sets [isGenerating]. *)
Theorem generate_button_click s :
  generateDisabled s = false ->
  exists img,
    image s = Some img
    /\ trim (chatInput s) <> []
    /\ snd (step GenerateClick s)
       = [generateContent IMAGE_EDIT
            [inlineDataPart (lit "image/jpeg") (base64Of img);
             textPart (chatInput s)] None]
    /\ chatInput (fst (step GenerateClick s)) = []
    /\ isGenerating (fst (step GenerateClick s)) = true
    /\ generatedImage (fst (step GenerateClick s)) = None.
Proof.
  unfold generateDisabled. intros H.
  apply orb_false_elim in H. destruct H as [H Hgen].
  apply orb_false_elim in H. destruct H as [Himg Htrim].
  apply negb_false_iff in Himg, Htrim.
  destruct (image s) as [img|] eqn:Hi; [|discriminate].
  cbn [truthy_opt] in Himg.
  exists img. split; [reflexivity|]. split.
  { intros E. rewrite E in Htrim. discriminate. }
  cbn [step]. unfold handleGenerateImage_call. rewrite Hi, Himg.
  repeat split.
Qed.

Lemma generate_button_click_witness :
  generateDisabled
    (setChatInput (lit "sage green walls")
       (setImage (Some (lit "data:image/jpeg;base64,AAAA")) initial)) = false
  /\ exists img,
       image (setChatInput (lit "sage green walls")
                (setImage (Some (lit "data:image/jpeg;base64,AAAA"))
                   initial)) = Some img.
Proof.
  split; [reflexivity|].
  destruct (generate_button_click
              (setChatInput (lit "sage green walls")
                 (setImage (Some (lit "data:image/jpeg;base64,AAAA"))
                    initial)) eq_refl) as (img & H & _).
  exists img. exact H.
Defined.

(** X21.  [handleSendMessage] does nothing exactly when every character
    of the input is white space (or there is none) and no image is
    loaded; one other character, or an image, is enough for the message
    to be sent. *)
Theorem nothingToSend_iff s :
  nothingToSend s = true
  <-> forallb isTrimSpace (chatInput s) = true
      /\ (image s = None \/ image s = Some []).
Proof.
  unfold nothingToSend. rewrite andb_true_iff, !negb_true_iff.
  rewrite truthy_false, trim_nil.
  destruct (image s) as [[|c img]|]; cbn; split; intros [H1 H2];
    split; auto; try discriminate; destruct H2; discriminate.
Qed.

Lemma nothingToSend_iff_witness :
  forallb isTrimSpace (chatInput (setChatInput (lit "  ") initial)) = true
  /\ nothingToSend (setChatInput (lit "  ") initial) = true.
Proof.
  assert (H : forallb isTrimSpace
                (chatInput (setChatInput (lit "  ") initial)) = true)
    by reflexivity.
  exact (conj H (proj2 (nothingToSend_iff (setChatInput (lit "  ") initial))
                   (conj H (or_introl eq_refl)))).
Defined.

(** X22.  Once an image is uploaded, sending always goes through, blank
    input included: the request to the chat model carries the image data
    first and the input text second, the input text is appended to the
    chat as a user message after the two upload messages, and the input
    is cleared. *)
Theorem upload_then_send url s :
  truthy url = true ->
  let s1 := onloadend (Some url) s in
  snd (step Send s1)
  = [generateContent TEXT_CHAT
       [inlineDataPart (lit "image/jpeg") (base64Of url);
        textPart (chatInput s)] (Some DESIGNER)]
  /\ messages (fst (step Send s1))
     = messages s ++ [userMessage uploadedText (Some url);
                      modelMessage uploadReply;
                      userMessage (chatInput s) None]
  /\ chatInput (fst (step Send s1)) = []
  /\ isGenerating (fst (step Send s1)) = true.
Proof.
  intros Ht. cbn zeta. cbn [step]. unfold handleSendMessage_call.
  assert (Hn : nothingToSend (onloadend (Some url) s) = false).
  { unfold nothingToSend.
    change (image (onloadend (Some url) s)) with (Some url).
    cbn [truthy_opt]. rewrite Ht. apply andb_false_r. }
  rewrite Hn.
  change (image (onloadend (Some url) s)) with (Some url).
  cbv beta iota. rewrite Ht.
  change (chatInput (onloadend (Some url) s)) with (chatInput s).
  cbn [fst snd]. split; [reflexivity|]. split; [|split; reflexivity].
  unfold onloadend, addMessage, setMessages.
  cbn [messages setIsGenerating setChatInput setActiveTab setImage].
  rewrite <- !app_assoc. reflexivity.
Qed.

Lemma upload_then_send_witness :
  truthy (lit "data:image/jpeg;base64,AAAA") = true
  /\ chatInput
       (fst (step Send
               (onloadend (Some (lit "data:image/jpeg;base64,AAAA"))
                  initial))) = [].
Proof.
  destruct (upload_then_send (lit "data:image/jpeg;base64,AAAA") initial
              eq_refl) as (_ & _ & H & _).
  exact (conj eq_refl H).
Defined.

Lemma handleGenerateImage_call_image prompt img s :
  image s = Some img -> truthy img = true ->
  handleGenerateImage_call prompt s
  = (setGeneratedImage None (setIsGenerating true s),
     [generateContent IMAGE_EDIT
        [inlineDataPart (lit "image/jpeg") (base64Of img); textPart prompt]
        None]).
Proof.
  intros Hi Ht. unfold handleGenerateImage_call. rewrite Hi, Ht. reflexivity.
Qed.

Lemma imageSettle_no_call prompt o s :
  List.filter isApiCall (snd (handleGenerateImage_settle prompt o s)) = [].
Proof.
  destruct o as [[ps|]|]; cbn [handleGenerateImage_settle]; try reflexivity.
  destruct (extractImages prompt ps false s) as [found s'].
  destruct found; reflexivity.
Qed.

(** X23.  [isGenerating] is a flag, not a count of requests in flight,
    and the quick-action buttons are not disabled while a request is
    pending: two quick actions in a row issue two requests, and as soon
    as the first one settles [isGenerating] is false although the second
    is still outstanding. *)
Theorem isGenerating_is_a_flag p1 p2 o s :
  truthy_opt (image s) = true ->
  length (callsOf [QuickAction p1; QuickAction p2; ImageSettled p1 o] s)
  = 2%nat
  /\ length (List.filter isSettle
               [QuickAction p1; QuickAction p2; ImageSettled p1 o]) = 1%nat
  /\ isGenerating (run [QuickAction p1; QuickAction p2; ImageSettled p1 o] s)
     = false.
Proof.
  intros Hi. destruct (image s) as [img|] eqn:Himg; [|discriminate].
  cbn [truthy_opt] in Hi. split; [|split; [reflexivity|]].
  - cbn [callsOf step].
    rewrite (handleGenerateImage_call_image p1 img s Himg Hi). cbn [fst snd].
    rewrite (handleGenerateImage_call_image p2 img
               (setGeneratedImage None (setIsGenerating true s)) Himg Hi).
    cbn [fst snd].
    rewrite imageSettle_no_call. reflexivity.
  - unfold run. cbn [fold_left step]. apply imageSettle_isGenerating.
Qed.

Lemma isGenerating_is_a_flag_witness :
  truthy_opt (image (setImage (Some (lit "data:image/jpeg;base64,AAAA"))
                       initial)) = true
  /\ isGenerating
       (run [QuickAction (lit "a"); QuickAction (lit "b");
             ImageSettled (lit "a") imageRejected]
          (setImage (Some (lit "data:image/jpeg;base64,AAAA")) initial))
     = false.
Proof.
  destruct (isGenerating_is_a_flag (lit "a") (lit "b") imageRejected
              (setImage (Some (lit "data:image/jpeg;base64,AAAA")) initial)
              eq_refl) as (_ & _ & H).
  exact (conj eq_refl H).
Defined.

End HandlerFacts.
